(** * Go sample: [divide] and the worker pool of [demonstrateWorkerPool]

    A shallow embedding of two pieces of [Go/GoSample/main.go]:

    - [divide], on IEEE binary64 numbers (Rocq's primitive floats);
    - the worker pool: the goroutines running [worker], the body of
      [demonstrateWorkerPool], and the anonymous goroutine that waits on the
      [sync.WaitGroup] and closes [results].

    Goroutines are program counters, channels are FIFO buffers with a
    capacity and a closed flag, and the Go scheduler is the choice of the
    goroutine that runs next: an execution is a list of goroutine
    identifiers, each of which must be able to take its next step.  Local
    computation (a loop test, [w++], [job * 2]) is part of the step of the
    neighbouring channel or WaitGroup operation.  [time.Sleep] only delays a
    goroutine and is covered by the choice of the schedule.

    [numWorkers] and [numJobs] are constants of the source (3 and 9); the
    embedding takes them as parameters, and the demo instantiates them.
    They are Go [int]s; the facts below are for values below [max_int], so
    that the loop counters, which reach [numWorkers + 1] and [numJobs + 1],
    do not wrap around.

    [numJobs] is also the capacity of the two channels, and [make] can
    fail: it panics on a capacity above [max_chan], and the runtime ends
    the program when it cannot allocate the buffer.  What the machine can
    allocate is one more parameter of the embedding, [mem], counted in
    elements of a channel buffer.  When a [make] fails the pool ends
    before it has started a worker.

    Each step emits an [event].  The events of the two [fmt.Printf] calls
    are the output of the program; the others record the channel and
    WaitGroup operations, so that properties of a run can be stated on its
    trace. *)

From Stdlib Require Import ZArith Floats String.
From stdpp Require Import base list.

Open Scope Z_scope.

(** ** Section 2 of main.go: multiple return values *)

Module Divide.

(** [fmt.Errorf("division by zero")]; [None] is Go's nil error. *)
Definition error := string.

Definition divide (a b : float) : float * option error :=
  if PrimFloat.eqb b 0%float
  then (0%float, Some "division by zero"%string)
  else (PrimFloat.div a b, None).

End Divide.

(** ** Go's [int]

    64 bits wide on the platform of the recorded run (windows/amd64);
    arithmetic wraps around in two's complement. *)

Definition max_int : Z := 2 ^ 63 - 1.

Definition int_wrap (z : Z) : Z := (z + 2 ^ 63) mod 2 ^ 64 - 2 ^ 63.

Definition int_add (a b : Z) : Z := int_wrap (a + b).
Definition int_mul (a b : Z) : Z := int_wrap (a * b).

(** ** Channels of [int] *)

Record chan := Chan { buf : list Z; cap : Z; closed : bool }.

(** The channel that [make(chan int, c)] returns: open, empty, of capacity
    [c]. *)
Definition new_chan (c : Z) : chan := Chan [] c false.

(** The largest capacity [make(chan int, c)] accepts.  The runtime refuses
    a buffer that does not fit below its allocation limit: [makechan]
    panics when [c] elements of 8 bytes exceed [maxAlloc - hchanSize],
    which is [2^48 - 104] bytes for the 64-bit runtime of the recorded run
    (go1.24.4, windows/amd64). *)
Definition max_chan : Z := 2 ^ 45 - 13.

(** What ends a program: the panics of the channel and WaitGroup
    operations, and the fatal error of a runtime that is out of memory. *)
Inductive panic :=
| PanicMakeChan          (* panic: makechan: size out of range *)
| FatalOutOfMemory       (* fatal error: runtime: out of memory *)
| PanicSendOnClosed      (* panic: send on closed channel *)
| PanicCloseOfClosed     (* panic: close of closed channel *)
| PanicNegativeCounter.  (* panic: sync: negative WaitGroup counter *)

Inductive make_result :=
| MakeOk (c : chan) (rest : nat)
| MakeFailed (p : panic).

(** [make(chan int, c)] on a machine that can still allocate [mem] elements
    of channel buffer.  The runtime first checks the capacity and panics
    on a negative one or one above [max_chan]; then it allocates the
    buffer, and fails for want of memory when [c] exceeds [mem].  The
    channel comes with the memory that is left. *)
Definition make_chan (mem : nat) (c : Z) : make_result :=
  if (c <? 0) || (max_chan <? c) then MakeFailed PanicMakeChan
  else if c <=? Z.of_nat mem then MakeOk (new_chan c) (mem - Z.to_nat c)
  else MakeFailed FatalOutOfMemory.

Inductive send_result :=
| SendOk (c : chan)
| SendBlocked
| SendPanic.

(** [c <- v]: panics on a closed channel, blocks while the buffer is full.
    On a channel without buffer a send hands its value to a waiting
    receiver; the pool never gets there: whenever a goroutine of the pool
    is at a send, the buffer has room ([jobs_room], [results_room]). *)
Definition chan_send (c : chan) (v : Z) : send_result :=
  if closed c then SendPanic
  else if Z.of_nat (length (buf c)) <? cap c
       then SendOk (Chan (buf c ++ [v]) (cap c) (closed c))
       else SendBlocked.

Inductive recv_result :=
| RecvOk (v : Z) (c : chan)
| RecvBlocked
| RecvClosed.

(** One iteration of [for v := range c]: buffered values are delivered even
    after the close; an empty closed channel ends the loop; an empty open
    channel blocks. *)
Definition chan_recv (c : chan) : recv_result :=
  match buf c with
  | v :: rest => RecvOk v (Chan rest (cap c) (closed c))
  | [] => if closed c then RecvClosed else RecvBlocked
  end.

(** [close(c)]: [None] is the panic on a channel that is closed already. *)
Definition chan_close (c : chan) : option chan :=
  if closed c then None else Some (Chan (buf c) (cap c) true).

(** A channel variable before its [make]; nothing is ever done with it. *)
Definition no_chan : chan := Chan [] 0 false.

(** ** sync.WaitGroup

    [Add(delta)] on the counter; [None] is the panic on a negative counter.
    [Done()] is [Add(-1)]; [Wait()] returns when the counter is zero. *)
Definition wg_add (counter delta : Z) : option Z :=
  let c := counter + delta in
  if c <? 0 then None else Some c.

(** ** Goroutines *)

(** Program points of [worker]. *)
Inductive worker_pc :=
| WRange               (* for job := range jobs *)
| WProcess (job : Z)   (* fmt.Printf("Worker %d processing job %d\n"); time.Sleep *)
| WSend (job : Z)      (* results <- job * 2 *)
| WDefer               (* loop left; the deferred wg.Done() is pending *)
| WExit.

Record goroutine := Goroutine { wid : Z; wpc : worker_pc }.

(** Program points of [demonstrateWorkerPool]. *)
Inductive main_pc :=
| MSpawnLoop (w : Z)   (* for w := 1; w <= numWorkers; w++ : test, wg.Add(1) *)
| MGoWorker (w : Z)    (* go worker(w, jobs, results, &wg) *)
| MSendLoop (j : Z)    (* for j := 1; j <= numJobs; j++ : test, jobs <- j *)
| MCloseJobs           (* close(jobs) *)
| MGoCloser            (* go func() { wg.Wait(); close(results) }() *)
| MRange               (* for result := range results *)
| MPrint (r : Z)       (* fmt.Printf("Result: %d\n", result) *)
| MReturn.

(** Program points of the anonymous goroutine. *)
Inductive closer_pc :=
| CNone                (* not started *)
| CWait                (* wg.Wait() *)
| CClose               (* close(results) *)
| CExit.

Record state := State {
  mpc : main_pc;
  workers : list goroutine;      (* in the order they were started *)
  closer : closer_pc;
  jobs : chan;
  results : chan;
  wg : Z;
  panicked : option panic
}.

Definition set_mpc (s : state) (p : main_pc) : state :=
  State p (workers s) (closer s) (jobs s) (results s) (wg s) (panicked s).
Definition set_workers (s : state) (ws : list goroutine) : state :=
  State (mpc s) ws (closer s) (jobs s) (results s) (wg s) (panicked s).
Definition set_closer (s : state) (c : closer_pc) : state :=
  State (mpc s) (workers s) c (jobs s) (results s) (wg s) (panicked s).
Definition set_jobs (s : state) (c : chan) : state :=
  State (mpc s) (workers s) (closer s) c (results s) (wg s) (panicked s).
Definition set_results (s : state) (c : chan) : state :=
  State (mpc s) (workers s) (closer s) (jobs s) c (wg s) (panicked s).
Definition set_wg (s : state) (n : Z) : state :=
  State (mpc s) (workers s) (closer s) (jobs s) (results s) n (panicked s).
Definition set_panicked (s : state) (p : panic) : state :=
  State (mpc s) (workers s) (closer s) (jobs s) (results s) (wg s) (Some p).

(** The [i]-th started worker moves to program point [p]. *)
Definition set_wpc (s : state) (i : nat) (g : goroutine) (p : worker_pc) : state :=
  set_workers s (<[i := Goroutine (wid g) p]> (workers s)).

(** What a step does that another goroutine or the terminal can see. *)
Inductive event :=
| EvWgAdd                        (* wg.Add(1) *)
| EvGo (w : Z)                   (* worker w started *)
| EvLoopExit                     (* a counting loop of main ends *)
| EvSubmit (j : Z)               (* jobs <- j *)
| EvCloseJobs                    (* close(jobs) *)
| EvGoCloser                     (* the anonymous goroutine started *)
| EvClaim (w j : Z)              (* worker w received job j *)
| EvProcessing (w j : Z)         (* "Worker w processing job j" *)
| EvPublish (w j r : Z)          (* worker w sent r, computed from job j *)
| EvJobsExhausted (w : Z)        (* worker w leaves its range loop *)
| EvDone (w : Z)                 (* wg.Done() of worker w *)
| EvWaitReturn                   (* wg.Wait() returns *)
| EvCloseResults                 (* close(results) *)
| EvReceive (r : Z)              (* main received r from results *)
| EvResult (r : Z)               (* "Result: r" *)
| EvEndOfData                    (* main leaves its range loop *)
| EvPanic (p : panic).

Inductive tid :=
| TMain
| TWorker (i : nat)              (* index in [workers] *)
| TCloser.

Section Pool.

Variable mem : nat.
Variables numWorkers numJobs : Z.

(** The state in which the loop that starts the workers is entered: two
    empty channels of capacity [numJobs], the WaitGroup counter at zero,
    no goroutine but [demonstrateWorkerPool]. *)
Definition started : state :=
  State (MSpawnLoop 1) [] CNone (new_chan numJobs) (new_chan numJobs) 0 None.

(** [jobs := make(chan int, numJobs)], [results := make(chan int, numJobs)]
    and [var wg sync.WaitGroup], lines 432 to 437.  No other goroutine of
    the pool exists yet, so nothing is interleaved with these statements
    and they are taken together: [init] is the state they leave.  When a
    [make] fails the program ends there, before the loop that starts the
    workers is reached: no goroutine will step, and the state keeps no
    channel. *)
Definition init : state :=
  match make_chan mem numJobs with
  | MakeOk jobs rest =>
      match make_chan rest numJobs with
      | MakeOk results _ => State (MSpawnLoop 1) [] CNone jobs results 0 None
      | MakeFailed p => State (MSpawnLoop 1) [] CNone no_chan no_chan 0 (Some p)
      end
  | MakeFailed p => State (MSpawnLoop 1) [] CNone no_chan no_chan 0 (Some p)
  end.

(** What the declarations show: nothing, or the failure of a [make]. *)
Definition init_events : list event :=
  match panicked init with
  | Some p => [EvPanic p]
  | None => []
  end.

(** A panic in any goroutine ends the program. *)
Definition crash (s : state) (p : panic) : option (event * state) :=
  Some (EvPanic p, set_panicked s p).

(** One step of [demonstrateWorkerPool]. *)
Definition demonstrateWorkerPool (s : state) : option (event * state) :=
  match mpc s with
  | MSpawnLoop w =>
      if w <=? numWorkers then
        match wg_add (wg s) 1 with
        | Some c => Some (EvWgAdd, set_mpc (set_wg s c) (MGoWorker w))
        | None => crash s PanicNegativeCounter
        end
      else Some (EvLoopExit, set_mpc s (MSendLoop 1))
  | MGoWorker w =>
      Some (EvGo w,
            set_mpc (set_workers s (workers s ++ [Goroutine w WRange]))
                    (MSpawnLoop (int_add w 1)))
  | MSendLoop j =>
      if j <=? numJobs then
        match chan_send (jobs s) j with
        | SendOk c => Some (EvSubmit j, set_mpc (set_jobs s c) (MSendLoop (int_add j 1)))
        | SendBlocked => None
        | SendPanic => crash s PanicSendOnClosed
        end
      else Some (EvLoopExit, set_mpc s MCloseJobs)
  | MCloseJobs =>
      match chan_close (jobs s) with
      | Some c => Some (EvCloseJobs, set_mpc (set_jobs s c) MGoCloser)
      | None => crash s PanicCloseOfClosed
      end
  | MGoCloser => Some (EvGoCloser, set_mpc (set_closer s CWait) MRange)
  | MRange =>
      match chan_recv (results s) with
      | RecvOk r c => Some (EvReceive r, set_mpc (set_results s c) (MPrint r))
      | RecvBlocked => None
      | RecvClosed => Some (EvEndOfData, set_mpc s MReturn)
      end
  | MPrint r => Some (EvResult r, set_mpc s MRange)
  | MReturn => None
  end.

(** One step of the goroutine [g], the [i]-th that runs [worker]. *)
Definition worker (s : state) (i : nat) (g : goroutine) : option (event * state) :=
  match wpc g with
  | WRange =>
      match chan_recv (jobs s) with
      | RecvOk j c => Some (EvClaim (wid g) j, set_wpc (set_jobs s c) i g (WProcess j))
      | RecvBlocked => None
      | RecvClosed => Some (EvJobsExhausted (wid g), set_wpc s i g WDefer)
      end
  | WProcess j => Some (EvProcessing (wid g) j, set_wpc s i g (WSend j))
  | WSend j =>
      match chan_send (results s) (int_mul j 2) with
      | SendOk c => Some (EvPublish (wid g) j (int_mul j 2), set_wpc (set_results s c) i g WRange)
      | SendBlocked => None
      | SendPanic => crash s PanicSendOnClosed
      end
  | WDefer =>
      match wg_add (wg s) (-1) with
      | Some c => Some (EvDone (wid g), set_wpc (set_wg s c) i g WExit)
      | None => crash s PanicNegativeCounter
      end
  | WExit => None
  end.

(** One step of [go func() { wg.Wait(); close(results) }()]. *)
Definition wait_and_close (s : state) : option (event * state) :=
  match closer s with
  | CNone => None
  | CWait => if wg s =? 0 then Some (EvWaitReturn, set_closer s CClose) else None
  | CClose =>
      match chan_close (results s) with
      | Some c => Some (EvCloseResults, set_closer (set_results s c) CExit)
      | None => crash s PanicCloseOfClosed
      end
  | CExit => None
  end.

(** One step of goroutine [t]; [None] when it is blocked, has returned, does
    not exist, or the program has crashed. *)
Definition step (s : state) (t : tid) : option (event * state) :=
  match panicked s with
  | Some _ => None
  | None =>
      match t with
      | TMain => demonstrateWorkerPool s
      | TWorker i =>
          match workers s !! i with
          | Some g => worker s i g
          | None => None
          end
      | TCloser => wait_and_close s
      end
  end.

(** An execution: the schedule names the goroutine of each step. *)
Fixpoint exec_from (s : state) (sched : list tid) : option (list event * state) :=
  match sched with
  | [] => Some ([], s)
  | t :: sched' =>
      match step s t with
      | Some (e, s') =>
          match exec_from s' sched' with
          | Some (tr, s'') => Some (e :: tr, s'')
          | None => None
          end
      | None => None
      end
  end.

(** A run of the pool: the declarations, then the schedule. *)
Definition exec (sched : list tid) : option (list event * state) :=
  match exec_from init sched with
  | Some (tr, s) => Some (init_events ++ tr, s)
  | None => None
  end.

(** A scheduler that always runs the first goroutine of [order s] that can
    step, used to compute concrete executions. *)
Definition can_step (s : state) (t : tid) : bool :=
  match step s t with Some _ => true | None => false end.

Fixpoint schedule (order : state -> list tid) (fuel : nat) (s : state) : list tid :=
  match fuel with
  | O => []
  | S fuel' =>
      match List.find (can_step s) (order s) with
      | Some t =>
          match step s t with
          | Some (_, s') => t :: schedule order fuel' s'
          | None => []
          end
      | None => []
      end
  end.

End Pool.

Definition worker_tids (s : state) : list tid :=
  map TWorker (seq 0 (length (workers s))).

Definition main_first (s : state) : list tid :=
  TMain :: TCloser :: worker_tids s.

Definition workers_first (s : state) : list tid :=
  rev (worker_tids s) ++ [TCloser; TMain].

(** ** What a trace shows *)

Definition submit_of (e : event) : option Z :=
  match e with EvSubmit j => Some j | _ => None end.
Definition claim_of (e : event) : option (Z * Z) :=
  match e with EvClaim w j => Some (w, j) | _ => None end.
Definition processing_of (e : event) : option (Z * Z) :=
  match e with EvProcessing w j => Some (w, j) | _ => None end.
Definition publish_of (e : event) : option (Z * Z * Z) :=
  match e with EvPublish w j r => Some (w, j, r) | _ => None end.
Definition receive_of (e : event) : option Z :=
  match e with EvReceive r => Some r | _ => None end.
Definition result_of (e : event) : option Z :=
  match e with EvResult r => Some r | _ => None end.
Definition done_of (e : event) : option Z :=
  match e with EvDone w => Some w | _ => None end.
Definition close_of (e : event) : option unit :=
  match e with EvCloseResults => Some tt | _ => None end.
Definition panic_of (e : event) : option panic :=
  match e with EvPanic p => Some p | _ => None end.

(** The jobs sent on [jobs], in order. *)
Definition submitted (tr : list event) : list Z := omap submit_of tr.

(** (worker, job) for every job received from [jobs], in order. *)
Definition claimed (tr : list event) : list (Z * Z) := omap claim_of tr.

(** The "Worker w processing job j" lines, in the order they are printed. *)
Definition processed (tr : list event) : list (Z * Z) := omap processing_of tr.

(** (worker, job, value) for every value sent on [results], in order. *)
Definition published (tr : list event) : list (Z * Z * Z) := omap publish_of tr.

Definition received (tr : list event) : list Z := omap receive_of tr.

(** The "Result: r" lines, in the order they are printed. *)
Definition collected (tr : list event) : list Z := omap result_of tr.

(** The workers that ran [wg.Done()], in order. *)
Definition dones (tr : list event) : list Z := omap done_of tr.

(** How many times [close(results)] ran. *)
Definition closes (tr : list event) : nat := length (omap close_of tr).

Definition panics (tr : list event) : list panic := omap panic_of tr.

(** ** Bookkeeping on the goroutine table *)

Definition live_of (g : goroutine) : list Z :=
  match wpc g with WExit => [] | _ => [wid g] end.
Definition exit_of (g : goroutine) : list Z :=
  match wpc g with WExit => [wid g] | _ => [] end.
Definition hold_of (g : goroutine) : list (Z * Z) :=
  match wpc g with WProcess j => [(wid g, j)] | _ => [] end.
Definition send_of (g : goroutine) : list (Z * Z) :=
  match wpc g with WSend j => [(wid g, j)] | _ => [] end.

(** Workers that have not returned; the WaitGroup counts them. *)
Definition live_ids (ws : list goroutine) : list Z := ws ≫= live_of.

Definition exited_ids (ws : list goroutine) : list Z := ws ≫= exit_of.

(** Jobs claimed and not yet announced, with the worker that holds them. *)
Definition holding (ws : list goroutine) : list (Z * Z) := ws ≫= hold_of.

(** Jobs announced whose result is not yet sent. *)
Definition sending (ws : list goroutine) : list (Z * Z) := ws ≫= send_of.

Definition pending_go (p : main_pc) : Z :=
  match p with MGoWorker _ => 1 | _ => 0 end.

Definition phase (p : main_pc) : nat :=
  match p with
  | MSpawnLoop _ | MGoWorker _ => 0
  | MSendLoop _ => 1
  | MCloseJobs => 2
  | MGoCloser => 3
  | MRange | MPrint _ => 4
  | MReturn => 5
  end.

(** A worker that left its loop saw [jobs] closed and empty. *)
Definition exits_ok (jb : chan) (g : goroutine) : Prop :=
  match wpc g with
  | WDefer | WExit => closed jb = true ∧ buf jb = []
  | _ => True
  end.

(** ** Invariants of the pool *)

Section Invariants.

Variables numWorkers numJobs : Z.

(** Where [demonstrateWorkerPool] stands, against the number [n] of workers
    started so far. *)
Definition main_ok (p : main_pc) (n : nat) : Prop :=
  match p with
  | MSpawnLoop w => 1 <= w ∧ Z.of_nat n = w - 1 ∧ w - 1 <= Z.max 0 numWorkers
  | MGoWorker w => 1 <= w <= numWorkers ∧ Z.of_nat n = w - 1
  | MSendLoop j => 1 <= j <= numJobs + 1 ∧ Z.of_nat n = Z.max 0 numWorkers
  | _ => Z.of_nat n = Z.max 0 numWorkers
  end.

(** The invariant on states. *)
Record inv (s : state) : Prop := Inv {
  inv_panic : panicked s = None;
  inv_cap_jobs : cap (jobs s) = numJobs;
  inv_cap_results : cap (results s) = numJobs;
  inv_main : main_ok (mpc s) (length (workers s));
  inv_jobs_closed : closed (jobs s) = (3 <=? phase (mpc s))%nat;
  inv_closer :
    match closer s with
    | CNone => (phase (mpc s) < 4)%nat
    | _ => (4 <= phase (mpc s))%nat
    end;
  inv_wg : wg s = Z.of_nat (length (live_ids (workers s))) + pending_go (mpc s);
  inv_barrier : match closer s with CClose | CExit => wg s = 0 | _ => True end;
  inv_results_closed :
    closed (results s) = match closer s with CExit => true | _ => false end;
  inv_ids : forall i g, workers s !! i = Some g -> wid g = Z.of_nat i + 1;
  inv_exits : Forall (exits_ok (jobs s)) (workers s);
  inv_return :
    match mpc s with
    | MReturn => closed (results s) = true ∧ buf (results s) = []
    | _ => True
    end
}.

(** How many jobs [demonstrateWorkerPool] has sent. *)
Definition sent (p : main_pc) : Z :=
  match p with
  | MSpawnLoop _ | MGoWorker _ => 0
  | MSendLoop j => j - 1
  | _ => numJobs
  end.

(** The value received and not yet printed. *)
Definition in_hand (p : main_pc) : list Z :=
  match p with MPrint r => [r] | _ => [] end.

(** The invariant that ties a trace to the state it leads to.  The jobs
    sent so far are [1..sent]; they are claimed in that order; a claimed
    job is held by its worker or was announced; an announced job is held
    by its worker or its result was sent; the values sent are twice their
    jobs and reach [demonstrateWorkerPool] in the order they were sent. *)
Record hist (tr : list event) (s : state) : Prop := Hist {
  hist_submitted : submitted tr = seqZ 1 (sent (mpc s));
  hist_claimed : (claimed tr).*2 ++ buf (jobs s) = seqZ 1 (sent (mpc s));
  hist_processed : claimed tr ≡ₚ processed tr ++ holding (workers s);
  hist_published : processed tr ≡ₚ (published tr).*1 ++ sending (workers s);
  hist_received : (published tr).*2 = received tr ++ buf (results s);
  hist_collected : received tr = collected tr ++ in_hand (mpc s);
  hist_doubled : Forall (fun x => x.2 = int_mul x.1.2 2) (published tr);
  hist_closes : closes tr = Nat.b2n (closed (results s));
  hist_dones : dones tr ≡ₚ exited_ids (workers s);
  hist_panics : panics tr = option_list (panicked s)
}.

(** With a single worker the bookkeeping of [hist] holds in order. *)
Definition seq_hist (tr : list event) (s : state) : Prop :=
  claimed tr = processed tr ++ holding (workers s)
  ∧ processed tr = (published tr).*1 ++ sending (workers s).

(** [close(results)] comes after the [wg.Done()] of every worker, after
    every claimed job was announced and its result sent, and nothing is
    sent, no worker returns and no second close happens after it. *)
Definition close_order (tr : list event) : Prop :=
  forall pre post, tr = pre ++ EvCloseResults :: post ->
    dones pre ≡ₚ seqZ 1 numWorkers
    ∧ claimed pre ≡ₚ processed pre
    ∧ processed pre ≡ₚ (published pre).*1
    ∧ published post = [] ∧ dones post = []
    ∧ closes pre = 0%nat ∧ closes post = 0%nat.

(** *** Steps that remain

    Every step of every goroutine lowers [measure] by one. *)

Definition main_rank (p : main_pc) : nat :=
  match p with
  | MSpawnLoop w => 5 + 4 * Z.to_nat (numWorkers + 1 - w) + 6 * Z.to_nat numJobs
  | MGoWorker w => 8 + 4 * Z.to_nat (numWorkers - w) + 6 * Z.to_nat numJobs
  | MSendLoop j => 4 + 6 * Z.to_nat (numJobs + 1 - j)
  | MCloseJobs => 3
  | MGoCloser => 2
  | MRange => 1
  | MPrint _ => 2
  | MReturn => 0
  end.

Definition worker_rank (g : goroutine) : nat :=
  match wpc g with
  | WRange => 2
  | WProcess _ => 6
  | WSend _ => 5
  | WDefer => 1
  | WExit => 0
  end.

Definition closer_rank (c : closer_pc) : nat :=
  match c with
  | CNone | CWait => 2
  | CClose => 1
  | CExit => 0
  end.

Definition measure (s : state) : nat :=
  main_rank (mpc s)
  + sum_list_with worker_rank (workers s)
  + closer_rank (closer s)
  + 5 * length (buf (jobs s))
  + 2 * length (buf (results s))
  + match panicked s with Some _ => 0 | None => 1 end.

(** The number of steps of a run that returns, for at least one worker. *)
Definition run_length : nat :=
  6 * Z.to_nat numJobs + 4 * Z.to_nat numWorkers + 7.

End Invariants.

(** ** Concrete runs *)

(** An order of preference that changes with the load of the channels. *)
Definition rotating (s : state) : list tid :=
  rotate (length (buf (jobs s)) + length (buf (results s))) (main_first s).

(** A schedule that follows [prefix] and then lets [order] decide. *)
Definition resume (mem : nat) (numWorkers numJobs : Z) (order : state -> list tid)
    (fuel : nat) (prefix : list tid) : list tid :=
  prefix ++
  match exec mem numWorkers numJobs prefix with
  | Some (_, s) => schedule numWorkers numJobs order fuel s
  | None => []
  end.

Definition run_of (mem : nat) (numWorkers numJobs : Z) (sched : list tid)
    : list event * state :=
  match exec mem numWorkers numJobs sched with
  | Some r => r
  | None => ([], init mem numJobs)
  end.

(** The machine of the concrete runs: room for a thousand elements of
    channel buffer. *)
Definition demo_mem : nat := 1000.

(** The demo of main.go: [numWorkers = 3], [numJobs = 9].  In this run
    [demonstrateWorkerPool] starts the workers and sends the nine jobs,
    workers 1, 2 and 3 claim jobs 1, 2 and 3, and worker 3 is the first to
    send its result. *)
Definition demo_prefix : list tid :=
  replicate 19 TMain ++
  [TWorker 0; TWorker 1; TWorker 2; TWorker 2; TWorker 2;
   TWorker 1; TWorker 1; TWorker 0; TWorker 0].

Definition demo_sched : list tid :=
  Eval vm_compute in resume demo_mem 3 9 rotating 200 demo_prefix.

Definition demo_trace : list event :=
  Eval vm_compute in (run_of demo_mem 3 9 demo_sched).1.
Definition demo_final : state :=
  Eval vm_compute in (run_of demo_mem 3 9 demo_sched).2.

(** One worker, five jobs. *)
Definition single_sched : list tid :=
  Eval vm_compute in schedule 1 5 rotating 200 (init demo_mem 5).
Definition single_trace : list event :=
  Eval vm_compute in (run_of demo_mem 1 5 single_sched).1.
Definition single_final : state :=
  Eval vm_compute in (run_of demo_mem 1 5 single_sched).2.

(** Three workers, no job. *)
Definition empty_sched : list tid :=
  Eval vm_compute in schedule 3 0 workers_first 200 (init demo_mem 0).
Definition empty_trace : list event :=
  Eval vm_compute in (run_of demo_mem 3 0 empty_sched).1.
Definition empty_final : state :=
  Eval vm_compute in (run_of demo_mem 3 0 empty_sched).2.

(** No worker, two jobs. *)
Definition idle_sched : list tid :=
  Eval vm_compute in schedule 0 2 main_first 200 (init demo_mem 2).
Definition idle_trace : list event :=
  Eval vm_compute in (run_of demo_mem 0 2 idle_sched).1.
Definition idle_final : state :=
  Eval vm_compute in (run_of demo_mem 0 2 idle_sched).2.

(** ** The contract in the words of the specification *)

(** "N=1 degenerates to sequential processing": the results of a sequential
    pass over the batch, each job doubled as [worker] does. *)
Definition sequential_map (batch : list Z) : list Z :=
  map (fun job => int_mul job 2) batch.

(** "Fails with InvalidConfiguration ... surfaced immediately at
    construction, no workers started": [demonstrateWorkerPool] returns no
    value, so a failure can only show as a run that never sends a job and
    never returns, as the run in which a [make] fails does. *)
Definition fails_at_construction (mem : nat) (numWorkers numJobs : Z) : Prop :=
  forall sched tr s,
    exec mem numWorkers numJobs sched = Some (tr, s) ->
    submitted tr = [] ∧ mpc s ≠ MReturn.

(** "Jobs not yet claimed at cancellation time are never started ... report
    count of unprocessed jobs": the jobs that no worker announced. *)
Definition unprocessed (numJobs : Z) (tr : list event) : Z :=
  numJobs - Z.of_nat (length (processed tr)).

(** A cancelled run: it returns although some job was never started. *)
Definition cancelled_run (mem : nat) (numWorkers numJobs : Z) : Prop :=
  exists sched tr s,
    exec mem numWorkers numJobs sched = Some (tr, s)
    ∧ mpc s = MReturn ∧ 0 < unprocessed numJobs tr.

(** ** The other demonstrations of main.go *)

(** *** Section 2: named return values *)

(** [processData]: the named results start at their zero values; [len]
    counts bytes, as [String.length] does. *)
Definition processData (input : string) : string * Z * option Divide.error :=
  if String.eqb input ""
  then (""%string, 0, Some "input cannot be empty"%string)
  else (String.append "processed: " input, Z.of_nat (String.length input), None).

(** *** Section 13: variadic functions *)

Module Variadic.

(** The loop of [sum], from the running [total]. *)
Fixpoint sum_from (total : Z) (nums : list Z) : Z :=
  match nums with
  | [] => total
  | num :: rest => sum_from (int_add total num) rest
  end.

(** [sum(nums ...int)] *)
Definition sum (nums : list Z) : Z := sum_from 0 nums.

End Variadic.

(** The sum of the numbers as integers, without wrap-around. *)
Definition total_of (nums : list Z) : Z := foldr Z.add 0 nums.

(** *** Section 14: closures *)

(** [increment], which captures the variable [counter]: the value returned
    and the new value of [counter]. *)
Definition increment (counter : Z) : Z * Z :=
  let counter' := int_add counter 1 in (counter', counter').

(** [n] calls of [increment] in a row: the values returned and the final
    [counter]. *)
Fixpoint increments (n : nat) (counter : Z) : list Z * Z :=
  match n with
  | O => ([], counter)
  | S n' =>
      let '(r, counter') := increment counter in
      let '(rs, counter'') := increments n' counter' in
      (r :: rs, counter'')
  end.

(** [multiplier(factor)] is the closure [func(x int) int { return x * factor }]. *)
Definition multiplier (factor : Z) : Z -> Z := fun x => int_mul x factor.

(** *** Section 4: the buffered channel of [demonstrateChannels] *)

(** [c <- v1; c <- v2; ...] in one goroutine: the first send that cannot
    complete decides. *)
Fixpoint send_all (c : chan) (vs : list Z) : send_result :=
  match vs with
  | [] => SendOk c
  | v :: rest =>
      match chan_send c v with
      | SendOk c' => send_all c' rest
      | r => r
      end
  end.

(** [<-c, <-c, ...], [n] times, on a channel that is not closed: [None]
    when a receive would block. *)
Fixpoint recv_n (n : nat) (c : chan) : option (list Z * chan) :=
  match n with
  | O => Some ([], c)
  | S n' =>
      match chan_recv c with
      | RecvOk v c' =>
          match recv_n n' c' with
          | Some (vs, c'') => Some (v :: vs, c'')
          | None => None
          end
      | _ => None
      end
  end.

(** *** Section 7: [demonstrateDefer] *)

Inductive defer_line :=
| DeferBanner                   (* "=== DEFER DEMONSTRATION ===" *)
| FirstDefer                    (* "First defer" *)
| SecondDefer                   (* "Second defer" *)
| ThirdDefer                    (* "Third defer" *)
| RegularStatement              (* "Regular statement" *)
| DeferInLoop                   (* "Defer in loop (potential issue):" *)
| CleaningUp (file : string)    (* "Cleaning up %s" *)
| DeferredValue (val : Z).      (* "Deferred value: %d" *)

(** What a function has printed and the calls it has deferred, the last
    one first.  A deferred closure reads the variable [file] when it runs;
    the arguments of a deferred call are evaluated when it is deferred. *)
Record frame := Frame {
  printed : list defer_line;
  deferred : list (string -> defer_line)
}.

Definition println (l : defer_line) (f : frame) : frame :=
  Frame (printed f ++ [l]) (deferred f).

Definition defer (d : string -> defer_line) (f : frame) : frame :=
  Frame (printed f) (d :: deferred f).

(** [for i := 0; i < n; i++ { defer func(val int) {...}(i) }], from [i]. *)
Fixpoint defer_loop (fuel : nat) (i n : Z) (f : frame) : frame :=
  match fuel with
  | O => f
  | S fuel' =>
      if i <? n
      then defer_loop fuel' (int_add i 1) n (defer (fun _ => DeferredValue i) f)
      else f
  end.

(** The return: the deferred calls run, the last deferred first. *)
Definition return_from (file : string) (f : frame) : list defer_line :=
  printed f ++ map (fun d => d file) (deferred f).

(** [demonstrateDefer], with the bound 3 of its loop as the parameter [n]. *)
Definition demonstrateDefer (n : Z) : list defer_line :=
  let f := println DeferBanner (Frame [] []) in
  let f := defer (fun _ => FirstDefer) f in
  let f := defer (fun _ => SecondDefer) f in
  let f := defer (fun _ => ThirdDefer) f in
  let f := println RegularStatement f in
  let file := "example.txt"%string in
  let f := defer (fun file => CleaningUp file) f in
  let f := println DeferInLoop f in
  let f := defer_loop (S (Z.to_nat n)) 0 n f in
  return_from file f.

(** *** Section 9: slices that share their array *)

(** A slice is a window on an array: where it starts, its length and its
    capacity. *)
Record slice := Slice { s_off : nat; s_len : nat; s_cap : nat }.

Definition slice_wf (arr : list Z) (s : slice) : Prop :=
  (s_len s <= s_cap s)%nat ∧ (s_off s + s_cap s <= length arr)%nat.

(** What [%v] prints of the slice. *)
Definition slice_elems (arr : list Z) (s : slice) : list Z :=
  take (s_len s) (drop (s_off s) arr).

(** [s[lo:hi]], with [lo] and [hi] of type [int]: [None] is the panic on
    bounds out of range, raised unless [0 <= lo <= hi <= cap(s)]. *)
Definition slice_sub (s : slice) (lo hi : Z) : option slice :=
  if (0 <=? lo) && (lo <=? hi) && (hi <=? Z.of_nat (s_cap s))
  then Some (Slice (s_off s + Z.to_nat lo) (Z.to_nat (hi - lo))
                   (s_cap s - Z.to_nat lo))
  else None.

(** [s[i] = v] on the array, with [i] of type [int]: [None] is the panic on
    an index out of range, raised unless [0 <= i < len(s)]. *)
Definition slice_set (arr : list Z) (s : slice) (i : Z) (v : Z) : option (list Z) :=
  if (0 <=? i) && (i <? Z.of_nat (s_len s))
  then Some (<[(s_off s + Z.to_nat i)%nat := v]> arr)
  else None.

(** [s[i]] *)
Definition slice_get (arr : list Z) (s : slice) (i : Z) : option Z :=
  if (0 <=? i) && (i <? Z.of_nat (s_len s))
  then arr !! (s_off s + Z.to_nat i)%nat
  else None.

(** [subSlice := slice[lo:hi]; subSlice[i] = v] of
    [demonstrateSlicesAndMaps], and what the two slices then print. *)
Definition write_through (arr : list Z) (s : slice) (lo hi i : Z) (v : Z)
    : option (list Z * list Z) :=
  match slice_sub s lo hi with
  | Some sub =>
      match slice_set arr sub i v with
      | Some arr' => Some (slice_elems arr' s, slice_elems arr' sub)
      | None => None
      end
  | None => None
  end.

(** ** The definitions at work *)

Example divide_10_2 : Divide.divide 10 2 = (5%float, None).
Proof. reflexivity. Qed.

Example divide_10_0 :
  Divide.divide 10 0 = (0%float, Some "division by zero"%string).
Proof. reflexivity. Qed.

Example divide_negative_zero :
  Divide.divide 1 (-0) = (0%float, Some "division by zero"%string).
Proof. reflexivity. Qed.

Example divide_by_nan : (Divide.divide 1 nan).2 = None.
Proof. reflexivity. Qed.

Example int_mul_small : int_mul 9 2 = 18.
Proof. reflexivity. Qed.

Example int_mul_wraps : int_mul (2 ^ 62) 2 = - 2 ^ 63.
Proof. reflexivity. Qed.

Example recv_after_close :
  chan_recv (Chan [4; 6] 9 true) = RecvOk 4 (Chan [6] 9 true).
Proof. reflexivity. Qed.

Example send_on_full : chan_send (Chan [1; 2] 2 false) 3 = SendBlocked.
Proof. reflexivity. Qed.

Example demo_run : exec demo_mem 3 9 demo_sched = Some (demo_trace, demo_final).
Proof. vm_compute. reflexivity. Qed.

Example demo_output :
  collected demo_trace = [6; 4; 2; 12; 14; 16; 18; 10; 8].
Proof. reflexivity. Qed.

Example demo_announcements :
  processed demo_trace =
  [(3, 3); (2, 2); (1, 1); (1, 6); (1, 7); (1, 8); (1, 9); (2, 5); (3, 4)].
Proof. reflexivity. Qed.

Example demo_final_state :
  demo_final =
  State MReturn [Goroutine 1 WExit; Goroutine 2 WExit; Goroutine 3 WExit]
        CExit (Chan [] 9 true) (Chan [] 9 true) 0 None.
Proof. reflexivity. Qed.

Example idle_run : exec demo_mem 0 2 idle_sched = Some (idle_trace, idle_final).
Proof. vm_compute. reflexivity. Qed.

(** ** Generic list facts *)

Lemma bind_insert_perm {A B} (f : A -> list B) (l : list A) (i : nat) (x y : A) :
  l !! i = Some x ->
  (<[i := y]> l ≫= f) ++ f x ≡ₚ (l ≫= f) ++ f y.
Proof.
  revert i. induction l as [|a l IH]; intros [|i] Hi; simplify_eq/=.
  - solve_Permutation.
  - rewrite <- !(assoc_L (++)). f_equiv. by apply IH.
Qed.

Lemma bind_insert_length {A B} (f : A -> list B) (l : list A) (i : nat) (x y : A) :
  l !! i = Some x ->
  (length (<[i := y]> l ≫= f) + length (f x) = length (l ≫= f) + length (f y))%nat.
Proof.
  intros Hi. rewrite <- !length_app. apply Permutation_length.
  by apply bind_insert_perm.
Qed.

Lemma omap_snoc {A B} (f : A -> option B) (l : list A) (x : A) :
  omap f (l ++ [x]) = omap f l ++ match f x with Some y => [y] | None => [] end.
Proof. rewrite omap_app. simpl. by destruct (f x). Qed.

(** Bookkeeping step for an invariant [a ≡ₚ b ++ h], where [h] is read off
    the goroutine table: the step appends [da] and [db] to the two trace
    projections and replaces the entry [x] of one goroutine by [y]. *)
Lemma perm_step {A} (a b h h' x y da db : list A) :
  a ≡ₚ b ++ h ->
  h' ++ x ≡ₚ h ++ y ->
  da ++ x ≡ₚ db ++ y ->
  a ++ da ≡ₚ (b ++ db) ++ h'.
Proof.
  intros Ha Hh Hd. apply (Permutation_app_inv_r x).
  transitivity (b ++ db ++ h ++ y).
  - rewrite Ha.
    transitivity ((b ++ h) ++ db ++ y); [|solve_Permutation].
    rewrite <- Hd. solve_Permutation.
  - rewrite <- Hh. solve_Permutation.
Qed.

Lemma perm_step0 {A} (a h h' x y da : list A) :
  a ≡ₚ h ->
  h' ++ x ≡ₚ h ++ y ->
  da ++ x ≡ₚ y ->
  a ++ da ≡ₚ h'.
Proof.
  intros Ha Hh Hd.
  pose proof (perm_step a [] h h' x y da [] Ha Hh Hd) as H. by simpl in H.
Qed.

Lemma seqZ_snoc (m n : Z) : 0 <= n -> seqZ m (n + 1) = seqZ m n ++ [m + n].
Proof.
  intros Hn. by rewrite seqZ_app by lia.
Qed.

Lemma int_add_small (a b : Z) :
  - 2 ^ 63 <= a + b <= max_int -> int_add a b = a + b.
Proof.
  unfold int_add, int_wrap, max_int. intros H.
  rewrite Z.mod_small by lia. lia.
Qed.

(** ** Facts on the goroutine table *)

Lemma exits_ok_change (jb jb' : chan) (ws : list goroutine) :
  Forall (exits_ok jb) ws ->
  ¬ (closed jb = true ∧ buf jb = []) ->
  Forall (exits_ok jb') ws.
Proof.
  intros H Hn. eapply Forall_impl; [exact H|].
  intros g. unfold exits_ok. destruct (wpc g); tauto.
Qed.

Lemma ids_snoc (ws : list goroutine) (w : Z) (p : worker_pc) :
  (forall i g, ws !! i = Some g -> wid g = Z.of_nat i + 1) ->
  Z.of_nat (length ws) = w - 1 ->
  forall i g, (ws ++ [Goroutine w p]) !! i = Some g -> wid g = Z.of_nat i + 1.
Proof.
  intros Hids Hlen i g Hl.
  apply lookup_app_Some in Hl as [Hl | [Hge Hl]]; [by apply Hids|].
  apply list_lookup_singleton_Some in Hl as [Hi <-]. simpl. lia.
Qed.

Lemma ids_insert (ws : list goroutine) (k : nat) (g0 : goroutine) (p : worker_pc) :
  (forall i g, ws !! i = Some g -> wid g = Z.of_nat i + 1) ->
  ws !! k = Some g0 ->
  forall i g, <[k := Goroutine (wid g0) p]> ws !! i = Some g -> wid g = Z.of_nat i + 1.
Proof.
  intros Hids Hk i g Hl.
  apply list_lookup_insert_Some in Hl as [(-> & <- & _) | [_ Hl]]; simpl; eauto.
Qed.

Lemma live_insert (ws : list goroutine) (i : nat) (g : goroutine) (p : worker_pc) :
  ws !! i = Some g ->
  (length (live_ids (<[i := Goroutine (wid g) p]> ws)) + length (live_of g)
   = length (live_ids ws) + match p with WExit => 0 | _ => 1 end)%nat.
Proof.
  intros Hg. unfold live_ids.
  pose proof (bind_insert_length live_of ws i g (Goroutine (wid g) p) Hg) as H.
  fold (live_ids ws) in H. rewrite H. unfold live_of. simpl. by destruct p.
Qed.

Lemma rank_insert (f : goroutine -> nat) (ws : list goroutine) (i : nat)
    (g g' : goroutine) :
  ws !! i = Some g ->
  (sum_list_with f (<[i := g']> ws) + f g = sum_list_with f ws + f g')%nat.
Proof.
  revert i. induction ws as [|a ws IH]; intros [|i] Hi; simplify_eq/=; [lia|].
  specialize (IH i Hi). lia.
Qed.

Lemma live_exists (ws : list goroutine) :
  live_ids ws ≠ [] -> exists i g, ws !! i = Some g ∧ wpc g ≠ WExit.
Proof.
  unfold live_ids. induction ws as [|g ws IH]; [done|].
  rewrite bind_cons. destruct (wpc g) eqn:Hg.
  1-4: intros _; exists 0%nat, g; split; [done | congruence].
  unfold live_of at 1. rewrite Hg. simpl. intros H.
  destruct (IH H) as (i & g' & Hi & Hg'). by exists (S i), g'.
Qed.

Lemma sending_pos (ws : list goroutine) (i : nat) (g : goroutine) (j : Z) :
  ws !! i = Some g -> wpc g = WSend j -> (0 < length (sending ws))%nat.
Proof.
  intros Hg Hpc.
  pose proof (bind_insert_length send_of ws i g (Goroutine (wid g) WExit) Hg) as H.
  unfold send_of at 2 4 in H. rewrite Hpc in H. simpl in H.
  unfold sending. lia.
Qed.

(** Unfolding the program's definitions. *)
Ltac unfold_step := unfold step.
Ltac unfold_step_in H := unfold step in H.
Ltac unfold_measure := unfold measure, run_length.
Ltac unfold_measure_in H := unfold measure, run_length in H.

Section PoolFacts.

Variables numWorkers numJobs : Z.
Hypothesis workers_in_range : numWorkers < max_int.
Hypothesis jobs_in_range : 0 <= numJobs < max_int.

Local Abbreviation step := (step numWorkers numJobs).
Local Abbreviation exec_from := (exec_from numWorkers numJobs).
Local Abbreviation init := (started numJobs).
Local Abbreviation exec := (exec_from init).
Local Abbreviation inv := (inv numWorkers numJobs).
Local Abbreviation hist := (hist numJobs).
Local Abbreviation sent := (sent numJobs).
Local Abbreviation close_order := (close_order numWorkers).
Local Abbreviation run_length := (run_length numWorkers numJobs).
Local Abbreviation measure := (measure numWorkers numJobs).

Lemma inv_init : inv init.
Proof. split; simpl; try done; lia. Qed.

Ltac zbool :=
  repeat match goal with
  | H : (_ <? _) = true |- _ => apply Z.ltb_lt in H
  | H : (_ <? _) = false |- _ => apply Z.ltb_ge in H
  | H : (_ <=? _) = true |- _ => apply Z.leb_le in H
  | H : (_ <=? _) = false |- _ => apply Z.leb_gt in H
  | H : (_ =? _) = true |- _ => apply Z.eqb_eq in H
  | H : (_ =? _) = false |- _ => apply Z.eqb_neq in H
  end.

Ltac step_inv H :=
  unfold_step_in H;
  unfold demonstrateWorkerPool, worker, wait_and_close, crash,
    chan_send, chan_recv, chan_close, wg_add, set_wpc in H;
  simpl in H;
  repeat (case_match; simpl in *; simplify_eq; try done);
  zbool.

Lemma inv_step s t e s' : inv s -> step s t = Some (e, s') -> inv s'.
Proof.
  intros I Hstep.
  destruct s as [pc ws cl jb rs w pn]; destruct I; simpl in *; subst pn.
  destruct t.
  - step_inv Hstep.
    all: split; simpl; try done; try lia.
    all: rewrite ?int_add_small by (unfold max_int in *; lia).
    all: try (unfold live_ids; rewrite ?bind_app, ?length_app; simpl; lia).
    all: try (exfalso; lia).
    all: try (eapply ids_snoc; [eassumption | lia]).
    all: try (eapply exits_ok_change; [eassumption | simpl; intros []; congruence]).
    + apply Forall_app; split; [done|]. by repeat constructor.
  - unfold_step_in Hstep; simpl in Hstep.
    destruct (ws !! i) as [[id p]|] eqn:Hg; [|done].
    step_inv Hstep.
    all: split; simpl; try done; try lia.
    all: rewrite ?length_insert; try done.
    all: try (exfalso; lia).
    all: try (eapply ids_insert with (g0 := Goroutine id _); eassumption).
    all: try match goal with
      | Hg : ?ws !! ?i = Some ?g
        |- context [live_ids (<[?i := Goroutine _ ?p]> ?ws)] =>
          pose proof (live_insert ws i g p Hg) as Hl;
          unfold live_of in Hl; simpl in Hl; lia
      end.
    all: try match goal with
      | |- Forall (exits_ok _) (<[_ := _]> _) =>
          apply Forall_insert;
          [ first [ assumption
                  | eapply exits_ok_change;
                    [eassumption | simpl; intros []; congruence] ]
          | unfold exits_ok; simpl; try done ]
      end.
    all: try (pose proof (live_insert ws i _ WExit Hg) as Hlive;
              unfold live_of in Hlive; simpl in Hlive; exfalso; lia).
    all: try (pose proof (Forall_lookup_1 _ _ _ _ inv_exits0 Hg) as Hx;
              unfold exits_ok in Hx; simpl in Hx; done).
    all: try (destruct inv_return0; congruence).
  - step_inv Hstep.
    all: split; simpl; try done; try lia.
Qed.

(** *** Executions step by step *)

Lemma exec_from_app s sched1 sched2 :
  exec_from s (sched1 ++ sched2) =
  match exec_from s sched1 with
  | Some (tr1, s1) =>
      match exec_from s1 sched2 with
      | Some (tr2, s2) => Some (tr1 ++ tr2, s2)
      | None => None
      end
  | None => None
  end.
Proof.
  revert s. induction sched1 as [|t sched1 IH]; intros s; simpl.
  - by destruct (exec_from s sched2) as [[??]|].
  - destruct (step s t) as [[e s']|]; [|done].
    rewrite IH. destruct (exec_from s' sched1) as [[tr1 s1]|]; [|done].
    by destruct (exec_from s1 sched2) as [[??]|].
Qed.

Lemma exec_from_snoc s sched t tr' s' :
  exec_from s (sched ++ [t]) = Some (tr', s') ->
  exists tr s1 e,
    exec_from s sched = Some (tr, s1) ∧ step s1 t = Some (e, s') ∧ tr' = tr ++ [e].
Proof.
  rewrite exec_from_app. destruct (exec_from s sched) as [[tr s1]|]; [|done].
  simpl. destruct (step s1 t) as [[e s2]|] eqn:Hs; [|done].
  intros [= <- <-]. exists tr, s1, e. by rewrite Hs.
Qed.

(** Induction over the executions from [init], one step at the end. *)
Lemma exec_ind (P : list event -> state -> Prop) :
  P [] init ->
  (forall tr s t e s', P tr s -> step s t = Some (e, s') -> P (tr ++ [e]) s') ->
  forall sched tr s, exec sched = Some (tr, s) -> P tr s.
Proof.
  intros Hinit Hstep sched.
  induction sched as [|t sched IH] using rev_ind; intros tr s Hexec.
  - by injection Hexec as <- <-.
  - apply exec_from_snoc in Hexec as (tr0 & s0 & e & Hexec & Hs & ->).
    eapply Hstep; [|exact Hs]. by apply IH.
Qed.

Lemma inv_exec sched tr s : exec sched = Some (tr, s) -> inv s.
Proof.
  apply (exec_ind (fun _ s => inv s)); [apply inv_init|].
  intros ????? I Hs. by eapply inv_step.
Qed.

Lemma hist_init : hist [] init.
Proof. split; simpl; try done. Qed.

Ltac snoc_trace :=
  unfold submitted, claimed, processed, published, received, collected, dones, closes,
    panics;
  rewrite ?omap_snoc, ?fmap_app, ?length_app; simpl;
  rewrite ?app_nil_r, ?Nat.add_0_r.

Lemma hist_step tr s t e s' :
  inv s -> hist tr s -> step s t = Some (e, s') -> hist (tr ++ [e]) s'.
Proof.
  intros I H Hstep.
  pose proof (inv_main _ _ _ I) as Hmain.
  destruct s as [pc ws cl jb rs w pn]; destruct H; simpl in *; clear I.
  unfold submitted, claimed, processed, published, received, collected, dones, closes,
    panics, holding, sending, exited_ids in *.
  destruct t.
  - step_inv Hstep.
    all: rewrite ?app_nil_r in *.
    all: split; simpl; snoc_trace; try done; try lia.
    all: unfold holding, sending, exited_ids in *;
         rewrite ?bind_app; simpl; rewrite ?app_nil_r; try done.
    all: try congruence.
    all: try (rewrite int_add_small by (unfold max_int in *; lia);
              replace (j + 1 - 1) with ((j - 1) + 1) by lia;
              rewrite seqZ_snoc by lia;
              lazymatch goal with
              | |- omap submit_of _ ++ _ = _ => rewrite <- hist_submitted0
              | |- _ => rewrite <- hist_claimed0, <- (assoc_L (++))
              end;
              repeat f_equal; lia).
    all: try (replace numJobs with (j - 1) by lia; done).
    all: try (rewrite hist_received0, <- ?(assoc_L (++)); done).
    all: try match goal with
      | Hb : buf _ = _ |- _ => rewrite ?Hb, ?app_nil_r; done
      | Hb : closed _ = _ |- _ => by rewrite ?Hb
      end.
    all: by rewrite hist_panics0.
  - unfold_step_in Hstep; simpl in Hstep.
    destruct pn; [done|].
    destruct (ws !! i) as [[id p]|] eqn:Hg; [|done].
    clear Hmain. step_inv Hstep.
    all: split; simpl.
    all: unfold submitted, claimed, processed, published, received, collected, dones,
           closes, panics, holding, sending, exited_ids;
         rewrite ?omap_snoc, ?fmap_app, ?length_app.
    all: try match goal with
      | |- _ ≡ₚ (_ ++ _) ++ <[_:=_]> _ ≫= hold_of =>
          eapply perm_step;
          [ exact hist_processed0
          | exact (bind_insert_perm hold_of _ _ _ _ Hg)
          | simpl; done ]
      | |- _ ≡ₚ (_ ++ _) ++ <[_:=_]> _ ≫= send_of =>
          eapply perm_step;
          [ exact hist_published0
          | exact (bind_insert_perm send_of _ _ _ _ Hg)
          | simpl; done ]
      | |- _ ≡ₚ <[_:=_]> _ ≫= exit_of =>
          eapply perm_step0;
          [ exact hist_dones0
          | exact (bind_insert_perm exit_of _ _ _ _ Hg)
          | simpl; done ]
      end.
    all: simpl; rewrite ?app_nil_r, ?Nat.add_0_r; try done; try lia.
    all: try (rewrite <- (assoc_L (++)); done).
    all: try match goal with
      | Hb : buf _ = _ |- _ => rewrite ?Hb, ?app_nil_r; done
      | Hb : closed _ = _ |- _ => by rewrite ?Hb
      end.
    all: try (rewrite hist_received0, <- ?(assoc_L (++)); done).
    all: try (apply Forall_app; split; [done | by repeat constructor]).
    all: try (by rewrite hist_panics0).
    all: try match goal with
      | Hb : buf _ = [] |- _ => by rewrite Hb
      end.
  - step_inv Hstep.
    all: split; simpl; snoc_trace; try done; try lia.
    + match goal with Hcl : closed _ = true |- _ => by rewrite Hcl end.
    + by rewrite hist_panics0.
Qed.

Lemma hist_exec sched tr s : exec sched = Some (tr, s) -> inv s ∧ hist tr s.
Proof.
  apply (exec_ind (fun tr s => inv s ∧ hist tr s)).
  - split; [apply inv_init | apply hist_init].
  - intros ????? [I H] Hs. split; [by eapply inv_step | by eapply hist_step].
Qed.

(** *** What holds once the barrier has been passed *)

Lemma live_nil_exited (ws : list goroutine) :
  live_ids ws = [] -> Forall (fun g => wpc g = WExit) ws.
Proof.
  unfold live_ids. induction ws as [|g ws IH]; simpl; [constructor|].
  intros [Hg Hws]%app_eq_nil. constructor; [|by apply IH].
  unfold live_of in Hg. by destruct (wpc g).
Qed.

Lemma exited_tables (ws : list goroutine) :
  Forall (fun g => wpc g = WExit) ws ->
  holding ws = [] ∧ sending ws = [] ∧ exited_ids ws = wid <$> ws.
Proof.
  unfold holding, sending, exited_ids.
  induction 1 as [|g ws Hg _ (IH1 & IH2 & IH3)]; [done|].
  rewrite !bind_cons, fmap_cons, IH1, IH2, IH3.
  unfold hold_of, send_of, exit_of. by rewrite Hg.
Qed.

Lemma ids_seqZ (ws : list goroutine) :
  (forall i g, ws !! i = Some g -> wid g = Z.of_nat i + 1) ->
  wid <$> ws = seqZ 1 (Z.of_nat (length ws)).
Proof.
  intros Hids. apply list_eq; intros i. rewrite list_lookup_fmap.
  destruct (ws !! i) as [g|] eqn:Hg; simpl.
  - apply lookup_lt_Some in Hg as Hlt.
    rewrite lookup_seqZ_lt by lia. f_equal. rewrite (Hids i g Hg). lia.
  - apply lookup_ge_None in Hg. by rewrite lookup_seqZ_ge by lia.
Qed.

(** Once [wg.Wait()] has returned, every worker has been started and has
    returned. *)
Lemma barrier_passed s :
  inv s -> closer s = CClose ∨ closer s = CExit ->
  Forall (fun g => wpc g = WExit) (workers s)
  ∧ wid <$> workers s = seqZ 1 numWorkers.
Proof.
  intros I Hc.
  pose proof (inv_barrier _ _ _ I) as Hb. pose proof (inv_wg _ _ _ I) as Hw.
  pose proof (inv_closer _ _ _ I) as Hp. pose proof (inv_main _ _ _ I) as Hm.
  assert (wg s = 0 ∧ (4 <= phase (mpc s))%nat) as [Hz Hph]
    by (destruct Hc as [Hc | Hc]; rewrite Hc in Hb, Hp; done).
  assert (live_ids (workers s) = []) as Hl.
  { apply length_zero_iff_nil. destruct (mpc s); simpl in *; lia. }
  split; [by apply live_nil_exited|].
  rewrite (ids_seqZ _ (inv_ids _ _ _ I)).
  assert (Z.of_nat (length (workers s)) = Z.max 0 numWorkers) as ->
    by (destruct (mpc s); simpl in *; lia).
  destruct (decide (0 <= numWorkers)).
  - by rewrite Z.max_r by lia.
  - rewrite Z.max_l by lia. by rewrite !seqZ_nil by lia.
Qed.

Lemma closed_results_closer s :
  inv s -> closed (results s) = true -> closer s = CExit.
Proof.
  intros I Hc. pose proof (inv_results_closed _ _ _ I) as H.
  rewrite Hc in H. by destruct (closer s).
Qed.

(** With at least one worker, a returned worker has drained [jobs]. *)
Lemma jobs_drained s :
  inv s -> 1 <= numWorkers -> closer s = CClose ∨ closer s = CExit ->
  buf (jobs s) = [].
Proof.
  intros I HN Hc. destruct (barrier_passed s I Hc) as [Hex Hids].
  pose proof (inv_exits _ _ _ I) as Hx.
  destruct (workers s) as [|g ws] eqn:Hws.
  - simpl in Hids. rewrite seqZ_cons in Hids by lia. done.
  - apply Forall_cons_1 in Hex as [Hg _]. apply Forall_cons_1 in Hx as [Hx _].
    unfold exits_ok in Hx. rewrite Hg in Hx. tauto.
Qed.

(** The state in which [demonstrateWorkerPool] returns. *)
Lemma returned_state tr s :
  inv s -> hist tr s -> mpc s = MReturn ->
  closer s = CExit ∧ buf (results s) = []
  ∧ claimed tr ≡ₚ processed tr
  ∧ processed tr ≡ₚ (published tr).*1
  ∧ collected tr = (published tr).*2
  ∧ dones tr ≡ₚ seqZ 1 numWorkers
  ∧ closes tr = 1%nat.
Proof.
  intros I H Hret.
  pose proof (inv_return _ _ _ I) as Hr. rewrite Hret in Hr. destruct Hr as [Hcl Hbuf].
  pose proof (closed_results_closer s I Hcl) as Hc.
  destruct (barrier_passed s I (or_intror Hc)) as [Hex Hids].
  destruct (exited_tables _ Hex) as (Hh & Hs & Hx).
  destruct H. rewrite Hh, Hs, Hx, ?Hbuf, ?Hcl, ?Hret, ?Hids, ?app_nil_r in *.
  simpl in *. rewrite ?app_nil_r in *. repeat split; try done. congruence.
Qed.

Lemma doubled_values (l : list (Z * Z * Z)) :
  Forall (fun x => x.2 = int_mul x.1.2 2) l ->
  l.*2 = (fun j => int_mul j 2) <$> l.*1.*2.
Proof.
  induction 1 as [|x l Hx _ IH]; [done|]. rewrite !fmap_cons. by f_equal.
Qed.

(** *** Termination: every step lowers the measure *)

Lemma measure_step s t e s' :
  inv s -> step s t = Some (e, s') -> measure s = S (measure s').
Proof.
  intros I Hstep.
  pose proof (inv_main _ _ _ I) as Hmain.
  pose proof (inv_closer _ _ _ I) as Hcl.
  destruct s as [pc ws cl jb rs w pn]; simpl in *; clear I.
  unfold_measure; simpl.
  destruct t.
  - step_inv Hstep.
    all: unfold main_ok in Hmain; simpl.
    all: rewrite ?int_add_small by (unfold max_int in *; lia).
    all: rewrite ?sum_list_with_app, ?length_app; simpl.
    all: lia.
  - unfold_step_in Hstep; simpl in Hstep.
    destruct pn; [done|].
    destruct (ws !! i) as [[id p]|] eqn:Hg; [|done].
    clear Hmain Hcl. step_inv Hstep.
    all: rewrite ?length_app; simpl.
    all: try match goal with
      | |- context [<[?i := ?g']> ?ws] =>
          pose proof (rank_insert worker_rank ws i _ g' Hg) as Hr;
          cbn [worker_rank wpc] in Hr
      end.
    all: try match goal with Hb : buf _ = [] |- _ => rewrite Hb end.
    all: rewrite ?length_app; simpl; lia.
  - clear Hmain Hcl. step_inv Hstep; simpl; lia.
Qed.

(** *** Progress: sends always find room, and somebody can always move *)

Lemma sent_bounds s : inv s -> 0 <= sent (mpc s) <= numJobs.
Proof.
  intros I. pose proof (inv_main _ _ _ I) as Hm.
  destruct (mpc s); simpl in *; lia.
Qed.

Lemma jobs_room tr s :
  inv s -> hist tr s ->
  Z.of_nat (length (buf (jobs s))) <= sent (mpc s).
Proof.
  intros I H. pose proof (sent_bounds s I) as Hs.
  pose proof (f_equal length (hist_claimed _ _ _ H)) as Hc.
  rewrite length_app, length_seqZ in Hc. lia.
Qed.

Lemma results_room tr s i g j :
  inv s -> hist tr s -> workers s !! i = Some g -> wpc g = WSend j ->
  Z.of_nat (length (buf (results s))) < numJobs.
Proof.
  intros I H Hg Hpc. pose proof (sent_bounds s I) as Hs.
  pose proof (sending_pos _ _ _ _ Hg Hpc) as Hpos.
  pose proof (f_equal length (hist_claimed _ _ _ H)) as Hc.
  pose proof (Permutation_length (hist_processed _ _ _ H)) as Hp.
  pose proof (Permutation_length (hist_published _ _ _ H)) as Hq.
  pose proof (f_equal length (hist_received _ _ _ H)) as Hr.
  rewrite !length_app, ?length_fmap, ?length_seqZ in *. lia.
Qed.

Lemma progress tr s :
  inv s -> hist tr s -> mpc s ≠ MReturn -> exists t, is_Some (step s t).
Proof.
  intros I H Hret.
  pose proof (inv_panic _ _ _ I) as Hpn.
  pose proof (inv_cap_jobs _ _ _ I) as Hcj.
  pose proof (inv_cap_results _ _ _ I) as Hcr.
  destruct (mpc s) eqn:Hpc; try done.
  1-5, 7: exists TMain;
    unfold_step; unfold demonstrateWorkerPool, crash, chan_send, chan_close, wg_add;
    rewrite Hpn, Hpc; repeat case_match; try done.
  - (* jobs <- j always finds room *)
    zbool. pose proof (jobs_room tr s I H) as Hroom.
    rewrite Hpc in Hroom. simpl in Hroom. lia.
  - (* for result := range results *)
    destruct (buf (results s)) as [|r rest] eqn:Hbuf.
    2: { exists TMain. unfold_step; unfold demonstrateWorkerPool, chan_recv.
         by rewrite Hpn, Hpc, Hbuf. }
    destruct (closed (results s)) eqn:Hcl.
    { exists TMain. unfold_step; unfold demonstrateWorkerPool, chan_recv.
      by rewrite Hpn, Hpc, Hbuf, Hcl. }
    pose proof (inv_closer _ _ _ I) as Hc.
    pose proof (inv_results_closed _ _ _ I) as Hrc.
    rewrite Hpc in Hc. rewrite Hcl in Hrc.
    destruct (closer s) eqn:Hcloser; simpl in Hc; try lia; try done.
    + (* wg.Wait() *)
      destruct (decide (wg s = 0)) as [Hz|Hz].
      { exists TCloser. unfold_step; unfold wait_and_close.
        rewrite Hpn, Hcloser, Hz. done. }
      pose proof (inv_wg _ _ _ I) as Hwg. rewrite Hpc in Hwg. simpl in Hwg.
      destruct (live_exists (workers s)) as (i & g & Hg & Hlive).
      { intros Hnil. rewrite Hnil in Hwg. simpl in Hwg. lia. }
      exists (TWorker i).
      pose proof (inv_jobs_closed _ _ _ I) as Hjc. rewrite Hpc in Hjc.
      unfold_step; unfold worker, crash, chan_send, chan_recv, wg_add.
      rewrite Hpn, Hg, Hcl, Hjc. simpl.
      destruct (wpc g) eqn:Hw; try done; repeat case_match; try done.
      zbool. pose proof (results_room tr s i g _ I H Hg Hw). lia.
    + (* close(results) *)
      exists TCloser. unfold_step; unfold wait_and_close, chan_close, crash.
      rewrite Hpn, Hcloser, Hcl. done.
Qed.

Lemma exec_from_length s sched tr s' :
  exec_from s sched = Some (tr, s') -> length tr = length sched.
Proof.
  revert s tr. induction sched as [|t sched IH]; intros s tr; simpl.
  - by intros [= <- <-].
  - destruct (step s t) as [[e s1]|]; [|done].
    destruct (exec_from s1 sched) as [[tr1 s2]|] eqn:He; [|done].
    intros [= <- <-]. simpl. f_equal. by eapply IH.
Qed.

(** Every run from [init] has used up exactly its length of the measure. *)
Lemma exec_measure sched tr s :
  exec sched = Some (tr, s) -> (length sched + measure s = S run_length)%nat.
Proof.
  intros Hexec. rewrite <- (exec_from_length _ _ _ _ Hexec). revert Hexec.
  apply (exec_ind (fun tr s => inv s ∧ (length tr + measure s = S run_length)%nat)).
  - split; [apply inv_init|].
    unfold_measure; unfold main_rank; simpl.
    replace (numWorkers + 1 - 1) with numWorkers by lia. lia.
  - intros tr0 s0 t e s1 [I Hm] Hs. split; [by eapply inv_step|].
    rewrite (measure_step _ _ _ _ I Hs) in Hm. rewrite length_app. simpl. lia.
Qed.

Lemma exited_rank (ws : list goroutine) :
  Forall (fun g => wpc g = WExit) ws -> sum_list_with worker_rank ws = 0%nat.
Proof.
  induction 1 as [|g ws Hg _ IH]; [done|]. simpl.
  unfold worker_rank at 1. by rewrite Hg, IH.
Qed.

(** A run that returns took [run_length] steps. *)
Lemma returned_length sched tr s :
  1 <= numWorkers -> exec sched = Some (tr, s) -> mpc s = MReturn ->
  length sched = run_length.
Proof.
  intros HN Hexec Hret.
  pose proof (exec_measure _ _ _ Hexec) as Hm.
  destruct (hist_exec _ _ _ Hexec) as [I H].
  destruct (returned_state tr s I H Hret) as (Hc & Hbuf & _).
  destruct (barrier_passed s I (or_intror Hc)) as [Hex _].
  pose proof (jobs_drained s I HN (or_intror Hc)) as Hj.
  pose proof (inv_panic _ _ _ I) as Hp.
  unfold_measure_in Hm. unfold_measure.
  rewrite Hret, Hc, Hbuf, Hj, Hp, (exited_rank _ Hex) in Hm. simpl in Hm. lia.
Qed.

(** From every reachable state the run can be brought to its end. *)
Lemma completion tr s :
  inv s -> hist tr s ->
  exists sched' tr' s', exec_from s sched' = Some (tr', s') ∧ mpc s' = MReturn.
Proof.
  intros I H. remember (measure s) as n eqn:Hn. revert tr s I H Hn.
  induction n as [n IH] using lt_wf_ind. intros tr s I H ->.
  destruct (mpc s) eqn:Hpc.
  8: { exists [], [], s. by simpl. }
  all: destruct (progress tr s I H) as (t & [[e s1] Hs]); [by rewrite Hpc|].
  all: pose proof (measure_step _ _ _ _ I Hs) as Hm.
  all: destruct (IH (measure s1) ltac:(lia) (tr ++ [e]) s1) as (sched' & tr' & s' & He & Hr);
    [by eapply inv_step | by eapply hist_step | done |].
  all: exists (t :: sched'), (e :: tr'), s'; simpl; by rewrite Hs, He.
Qed.

(** *** The close of [results] *)

Lemma after_close_step s t e s' :
  inv s -> closed (results s) = true -> step s t = Some (e, s') ->
  publish_of e = None ∧ done_of e = None ∧ close_of e = None.
Proof.
  intros I Hcl Hs.
  pose proof (closed_results_closer s I Hcl) as Hc.
  destruct (barrier_passed s I (or_intror Hc)) as [Hex _].
  destruct s as [pc ws cl jb rs w pn]; simpl in *; subst cl.
  destruct t.
  - step_inv Hs.
  - unfold_step_in Hs; simpl in Hs. destruct pn; [done|].
    destruct (ws !! i) as [g|] eqn:Hg; [|done].
    pose proof (Forall_lookup_1 _ _ _ _ Hex Hg) as Hx. simpl in Hx.
    unfold worker in Hs. by rewrite Hx in Hs.
  - unfold_step_in Hs; unfold wait_and_close in Hs; simpl in Hs. by destruct pn.
Qed.

Lemma close_step s t s' :
  step s t = Some (EvCloseResults, s') -> closer s = CClose.
Proof.
  intros Hs. destruct s as [pc ws cl jb rs w pn]; simpl in *.
  destruct t.
  - step_inv Hs.
  - unfold_step_in Hs; simpl in Hs. destruct pn; [done|].
    destruct (ws !! i) as [g|] eqn:Hg; [|done]. step_inv Hs.
  - step_inv Hs.
Qed.

Lemma close_order_exec sched tr s : exec sched = Some (tr, s) -> close_order tr.
Proof.
  intros Hexec.
  enough (inv s ∧ hist tr s ∧ close_order tr) by tauto. revert Hexec.
  apply (exec_ind (fun tr s => inv s ∧ hist tr s ∧ close_order tr)).
  { split; [apply inv_init | split; [apply hist_init|]].
    intros pre post Heq. by destruct pre. }
  intros tr0 s0 t e s1 (I & H & Hco) Hs.
  split; [by eapply inv_step | split; [by eapply hist_step|]].
  intros pre post Heq.
  destruct post as [|x post _] using rev_ind.
  - (* the step is the close *)
    apply app_inj_tail in Heq as [-> ->].
    pose proof (close_step _ _ _ Hs) as Hc.
    destruct (barrier_passed s0 I (or_introl Hc)) as [Hex Hids].
    destruct (exited_tables _ Hex) as (Hh & Hsn & Hx).
    pose proof (inv_results_closed _ _ _ I) as Hrc. rewrite Hc in Hrc.
    destruct H. rewrite Hh, Hsn, Hx, Hids, Hrc, ?app_nil_r in *.
    repeat split; done.
  - (* the close came earlier *)
    rewrite app_comm_cons, (assoc_L (++)) in Heq.
    apply app_inj_tail in Heq as [-> ->].
    destruct (Hco pre post eq_refl) as (Hd & Hcp & Hpp & Hpub & Hdn & Hc1 & Hc2).
    assert (closed (results s0) = true) as Hcl.
    { pose proof (hist_closes _ _ _ H) as Hn. unfold closes in Hn.
      rewrite omap_app, length_app in Hn. simpl in Hn.
      destruct (closed (results s0)); [done | simpl in Hn; lia]. }
    destruct (after_close_step _ _ _ _ I Hcl Hs) as (Hp' & Hd' & Hc').
    repeat split; try done.
    + unfold published. by rewrite omap_snoc, Hp', app_nil_r.
    + unfold dones. by rewrite omap_snoc, Hd', app_nil_r.
    + unfold closes in *. by rewrite omap_snoc, Hc', app_nil_r.
Qed.

(** *** The run that has returned *)

Lemma returned_results sched tr s :
  1 <= numWorkers -> exec sched = Some (tr, s) -> mpc s = MReturn ->
  submitted tr = seqZ 1 numJobs
  ∧ (claimed tr).*2 = seqZ 1 numJobs
  ∧ claimed tr ≡ₚ processed tr
  ∧ processed tr ≡ₚ (published tr).*1
  ∧ collected tr = (published tr).*2
  ∧ collected tr = (fun j => int_mul j 2) <$> (published tr).*1.*2.
Proof.
  intros HN Hexec Hret. destruct (hist_exec _ _ _ Hexec) as [I H].
  destruct (returned_state tr s I H Hret) as (Hc & Hbuf & Hcp & Hpp & Hcol & _).
  pose proof (jobs_drained s I HN (or_intror Hc)) as Hj.
  pose proof (hist_submitted _ _ _ H) as Hsub.
  pose proof (hist_claimed _ _ _ H) as Hcl.
  rewrite Hret in Hsub, Hcl. rewrite Hj, app_nil_r in Hcl. simpl in *.
  repeat split; try done.
  rewrite Hcol. apply doubled_values, (hist_doubled _ _ _ H).
Qed.

(** *** A single worker *)

Lemma seq_hist_step tr s t e s' :
  numWorkers <= 1 -> inv s -> seq_hist tr s -> step s t = Some (e, s') ->
  seq_hist (tr ++ [e]) s'.
Proof.
  intros HN I [Hc Hp] Hs. pose proof (inv_main _ _ _ I) as Hm.
  destruct s as [pc ws cl jb rs w pn]; simpl in *; clear I.
  unfold seq_hist, claimed, processed, published, holding, sending in *.
  destruct ws as [|g0 [|g1 ws]]; simpl in *.
  3: { destruct pc; simpl in Hm; lia. }
  all: destruct t.
  all: try (unfold_step_in Hs; simpl in Hs; destruct pn; [done|];
            destruct i; simpl in Hs; try done; destruct g0 as [id p]).
  all: step_inv Hs.
  all: rewrite ?omap_snoc, ?fmap_app; simpl in *; rewrite ?app_nil_r in *.
  all: try done; try lia.
  all: split; congruence.
Qed.

Lemma seq_hist_exec sched tr s :
  numWorkers <= 1 -> exec sched = Some (tr, s) -> seq_hist tr s.
Proof.
  intros HN Hexec. enough (inv s ∧ seq_hist tr s) by tauto. revert Hexec.
  apply (exec_ind (fun tr s => inv s ∧ seq_hist tr s)).
  - split; [apply inv_init | done].
  - intros tr0 s0 t e s1 [I H] Hs.
    split; [by eapply inv_step | by eapply seq_hist_step].
Qed.

(** With one worker the results are printed in the order of submission. *)
Lemma single_worker_order sched tr s :
  numWorkers = 1 -> exec sched = Some (tr, s) -> mpc s = MReturn ->
  collected tr = (fun j => int_mul j 2) <$> submitted tr.
Proof.
  intros HN Hexec Hret.
  destruct (returned_results sched tr s ltac:(lia) Hexec Hret)
    as (Hsub & Hcl & _ & _ & _ & Hcol).
  destruct (seq_hist_exec sched tr s ltac:(lia) Hexec) as [Hc Hp].
  destruct (hist_exec _ _ _ Hexec) as [I H].
  destruct (returned_state tr s I H Hret) as (Hclo & _).
  destruct (barrier_passed s I (or_intror Hclo)) as [Hex _].
  destruct (exited_tables _ Hex) as (Hh & Hsn & _).
  rewrite Hh, Hsn, app_nil_r in *.
  by rewrite Hcol, <- Hp, <- Hc, Hcl, Hsub.
Qed.

(** *** Further consequences of the invariants *)

Lemma closes_le_1 tr s : hist tr s -> (closes tr <= 1)%nat.
Proof.
  intros H. rewrite (hist_closes _ _ _ H).
  destruct (closed (results s)); simpl; lia.
Qed.

Lemma claims_nodup tr s : hist tr s -> NoDup (claimed tr).*2.
Proof.
  intros H. pose proof (NoDup_seqZ 1 (sent (mpc s))) as Hn.
  rewrite <- (hist_claimed _ _ _ H) in Hn. by apply NoDup_app in Hn as [? _].
Qed.

Lemma published_jobs_range tr s x :
  inv s -> hist tr s -> x ∈ published tr -> 1 <= x.1.2 <= numJobs.
Proof.
  intros I H Hx. pose proof (sent_bounds s I) as Hs.
  assert (x.1 ∈ processed tr) as Hp.
  { rewrite (hist_published _ _ _ H). apply elem_of_app. left.
    by apply list_elem_of_fmap_2. }
  assert (x.1 ∈ claimed tr) as Hc.
  { rewrite (hist_processed _ _ _ H). apply elem_of_app. by left. }
  assert (x.1.2 ∈ seqZ 1 (sent (mpc s))) as Hj.
  { rewrite <- (hist_claimed _ _ _ H). apply elem_of_app. left.
    by apply list_elem_of_fmap_2. }
  apply elem_of_seqZ in Hj. lia.
Qed.

(** Where nothing was claimed, nothing is announced, sent or printed. *)
Lemma nothing_claimed tr s :
  hist tr s -> claimed tr = [] ->
  processed tr = [] ∧ published tr = [] ∧ received tr = [] ∧ collected tr = []
  ∧ buf (results s) = [].
Proof.
  intros H Hc.
  pose proof (hist_processed _ _ _ H) as Hp. rewrite Hc in Hp.
  symmetry in Hp. apply Permutation_nil_r in Hp. apply app_eq_nil in Hp as [Hp _].
  pose proof (hist_published _ _ _ H) as Hq. rewrite Hp in Hq.
  symmetry in Hq. apply Permutation_nil_r in Hq.
  apply app_eq_nil in Hq as [Hq%fmap_nil_inv _].
  pose proof (hist_received _ _ _ H) as Hr. rewrite Hq in Hr. simpl in Hr.
  symmetry in Hr. apply app_eq_nil in Hr as [Hr Hb].
  pose proof (hist_collected _ _ _ H) as Hk. rewrite Hr in Hk.
  symmetry in Hk. by apply app_eq_nil in Hk as [Hk _].
Qed.

(** Without jobs nothing is claimed. *)
Lemma no_jobs tr s : numJobs = 0 -> inv s -> hist tr s -> claimed tr = [].
Proof.
  intros HM I H. pose proof (sent_bounds s I) as Hs.
  pose proof (hist_claimed _ _ _ H) as Hc. rewrite seqZ_nil in Hc by lia.
  by apply app_eq_nil in Hc as [Hc%fmap_nil_inv _].
Qed.

(** After the return no goroutine has a step left. *)
Lemma returned_stuck s t : inv s -> mpc s = MReturn -> step s t = None.
Proof.
  intros I Hret.
  pose proof (inv_return _ _ _ I) as Hr. rewrite Hret in Hr. destruct Hr as [Hcl _].
  pose proof (closed_results_closer s I Hcl) as Hc.
  destruct (barrier_passed s I (or_intror Hc)) as [Hex _].
  unfold_step. destruct (panicked s); [done|]. destruct t.
  - unfold demonstrateWorkerPool. by rewrite Hret.
  - destruct (workers s !! i) as [g|] eqn:Hg; [|done].
    pose proof (Forall_lookup_1 _ _ _ _ Hex Hg) as Hx. simpl in Hx.
    unfold worker. by rewrite Hx.
  - unfold wait_and_close. by rewrite Hc.
Qed.

Lemma no_workers_state s : numWorkers <= 0 -> inv s -> workers s = [].
Proof.
  intros HN I. pose proof (inv_main _ _ _ I) as Hm.
  apply length_zero_iff_nil. destruct (mpc s); simpl in Hm; lia.
Qed.

(** Without workers nothing is claimed. *)
Lemma no_workers_exec sched tr s :
  numWorkers <= 0 -> exec sched = Some (tr, s) -> claimed tr = [].
Proof.
  intros HN Hexec. enough (inv s ∧ claimed tr = []) by tauto. revert Hexec.
  apply (exec_ind (fun tr s => inv s ∧ claimed tr = [])).
  { split; [apply inv_init | done]. }
  intros tr0 s0 t e s1 [I Hc] Hs. split; [by eapply inv_step|].
  pose proof (no_workers_state s0 HN I) as Hws.
  unfold claimed in *. rewrite omap_snoc, Hc. simpl.
  destruct s0 as [pc ws cl jb rs w pn]; simpl in *; subst ws; clear I.
  destruct t.
  - step_inv Hs.
  - unfold_step_in Hs; simpl in Hs. by destruct pn.
  - step_inv Hs.
Qed.

Lemma processed_nodup tr s : hist tr s -> NoDup (processed tr).*2.
Proof.
  intros H. pose proof (claims_nodup tr s H) as Hn.
  rewrite (hist_processed _ _ _ H), fmap_app in Hn.
  by apply NoDup_app in Hn as [? _].
Qed.

Lemma processed_claimed tr s : hist tr s -> processed tr ⊆+ claimed tr.
Proof.
  intros H. rewrite (hist_processed _ _ _ H). by apply submseteq_inserts_r.
Qed.

(** A worker at the head of its loop takes the next queued job. *)
Lemma claim_enabled s i g j rest :
  panicked s = None -> workers s !! i = Some g -> wpc g = WRange ->
  buf (jobs s) = j :: rest ->
  exists s', step s (TWorker i) = Some (EvClaim (wid g) j, s').
Proof.
  intros Hp Hg Hw Hb. unfold_step; unfold worker, chan_recv.
  rewrite Hp, Hg, Hw, Hb. by eexists.
Qed.

(** Once the channels are made no step of any goroutine panics. *)
Lemma step_no_panic tr s t e s' :
  inv s -> hist tr s -> step s t = Some (e, s') -> panic_of e = None.
Proof.
  intros I H Hs.
  pose proof (inv_step _ _ _ _ I Hs) as I'.
  pose proof (hist_panics _ _ _ (hist_step _ _ _ _ _ I H Hs)) as Hp.
  pose proof (hist_panics _ _ _ H) as Hp0.
  rewrite (inv_panic _ _ _ I') in Hp. rewrite (inv_panic _ _ _ I) in Hp0.
  unfold panics in *. rewrite omap_snoc, Hp0 in Hp.
  by destruct (panic_of e).
Qed.

(** When [results] is closed, [demonstrateWorkerPool] is past its own
    [close(jobs)]. *)
Lemma phase_after_close s :
  inv s -> closed (results s) = true -> (4 <= phase (mpc s))%nat.
Proof.
  intros I Hcl. pose proof (closed_results_closer s I Hcl) as Hc.
  pose proof (inv_closer _ _ _ I) as Hp. by rewrite Hc in Hp.
Qed.

Lemma close_jobs_step s t s' :
  step s t = Some (EvCloseJobs, s') -> phase (mpc s) = 2%nat.
Proof.
  intros Hs. destruct s as [pc ws cl jb rs w pn]; simpl in *.
  destruct t.
  - step_inv Hs.
  - unfold_step_in Hs; simpl in Hs. destruct pn; [done|].
    destruct (ws !! i) as [g|] eqn:Hg; [|done]. step_inv Hs.
  - step_inv Hs.
Qed.

End PoolFacts.

(** *** The declarations *)

(** With a capacity that [make] accepts and memory for the two buffers the
    pool starts with two empty channels of that capacity. *)
Lemma init_started (mem : nat) (M : Z) :
  0 <= M <= max_chan -> 2 * M <= Z.of_nat mem -> init mem M = started M.
Proof.
  intros HM Hmem. unfold init, make_chan.
  destruct (Z.ltb_spec M 0); [lia|].
  destruct (Z.ltb_spec max_chan M); [lia|]. simpl.
  destruct (Z.leb_spec M (Z.of_nat mem)); [|lia].
  destruct (Z.leb_spec M (Z.of_nat (mem - Z.to_nat M))); [done | lia].
Qed.

Lemma exec_started (mem : nat) (N M : Z) (sched : list tid) :
  0 <= M <= max_chan -> 2 * M <= Z.of_nat mem ->
  exec mem N M sched = exec_from N M (started M) sched.
Proof.
  intros HM Hmem. unfold exec, init_events. rewrite (init_started mem M HM Hmem).
  simpl. by destruct (exec_from N M (started M) sched) as [[??]|].
Qed.

(** *** When a [make] fails *)

(** The two channels are made exactly when the capacity is accepted and
    the memory suffices for both buffers; otherwise the first [make]
    panics on the capacity, or one of the two runs out of memory. *)
Lemma init_fails (mem : nat) (M : Z) :
  0 <= M -> ¬ (M <= max_chan ∧ 2 * M <= Z.of_nat mem) ->
  exists p,
    init mem M = State (MSpawnLoop 1) [] CNone no_chan no_chan 0 (Some p)
    ∧ ((p = PanicMakeChan ∧ max_chan < M)
       ∨ (p = FatalOutOfMemory ∧ M <= max_chan)).
Proof.
  intros HM Hno. unfold init, make_chan.
  destruct (Z.ltb_spec M 0); [lia|].
  destruct (Z.ltb_spec max_chan M); simpl.
  { exists PanicMakeChan. split; [done|]. by left. }
  exists FatalOutOfMemory.
  destruct (Z.leb_spec M (Z.of_nat mem)).
  - destruct (Z.leb_spec M (Z.of_nat (mem - Z.to_nat M))); [lia|].
    split; [done|]. by right.
  - split; [done|]. by right.
Qed.

(** The run is then the failure of [make] alone: no goroutine is
    scheduled. *)
Lemma exec_make_failed (mem : nat) (N M : Z) (sched : list tid) (tr : list event)
    (s : state) :
  0 <= M -> ¬ (M <= max_chan ∧ 2 * M <= Z.of_nat mem) ->
  exec mem N M sched = Some (tr, s) ->
  exists p,
    sched = [] ∧ tr = [EvPanic p]
    ∧ s = State (MSpawnLoop 1) [] CNone no_chan no_chan 0 (Some p)
    ∧ ((p = PanicMakeChan ∧ max_chan < M)
       ∨ (p = FatalOutOfMemory ∧ M <= max_chan)).
Proof.
  intros HM Hno. destruct (init_fails mem M HM Hno) as (p & Hinit & Hp).
  unfold exec, init_events. rewrite Hinit. simpl.
  destruct sched as [|t sched]; simpl; [|done].
  intros [= <- <-]. by exists p.
Qed.

Lemma channels_made_dec (mem : nat) (M : Z) :
  (M <= max_chan ∧ 2 * M <= Z.of_nat mem)
  ∨ ¬ (M <= max_chan ∧ 2 * M <= Z.of_nat mem).
Proof. lia. Qed.

Ltac make_failed_as Hexec Hno p Hp :=
  lazymatch type of Hexec with
  | exec ?mem ?N ?M ?sched = Some (?tr, ?s) =>
      destruct (exec_make_failed mem N M sched tr s ltac:(lia) Hno Hexec)
        as (p & -> & -> & -> & Hp)
  end.

Ltac make_failed Hexec Hno :=
  let p := fresh "p" in let Hp := fresh "Hp" in
  make_failed_as Hexec Hno p Hp; clear Hp.

(** With [numJobs = 1 << 60] the first [make] panics, and nothing can be
    scheduled. *)
Example make_panics_on_huge_batch :
  exec demo_mem 3 (2 ^ 60) [] =
  Some ([EvPanic PanicMakeChan],
        State (MSpawnLoop 1) [] CNone no_chan no_chan 0 (Some PanicMakeChan))
  ∧ exec demo_mem 3 (2 ^ 60) [TMain] = None.
Proof. split; reflexivity. Qed.

(** A capacity that is accepted, on a machine without the memory: for
    the first buffer, or only for the second. *)
Example make_runs_out_of_memory :
  exec demo_mem 3 (2 ^ 40) [] =
  Some ([EvPanic FatalOutOfMemory],
        State (MSpawnLoop 1) [] CNone no_chan no_chan 0 (Some FatalOutOfMemory))
  ∧ exec 15 3 9 [] =
    Some ([EvPanic FatalOutOfMemory],
          State (MSpawnLoop 1) [] CNone no_chan no_chan 0 (Some FatalOutOfMemory)).
Proof. split; reflexivity. Qed.

(** * The claims *)

(** ** The result stream *)

(** C1: with at least one worker, a run of the pool that has returned has
    printed exactly [M] results: the jobs from which the published values
    were computed are the submitted jobs [1..M], each once, and the printed
    results are the published values. *)
Theorem results_exactly_once (mem : nat) (N M : Z) (sched : list tid)
    (tr : list event) (s : state) :
  1 <= N < max_int -> 0 <= M < max_int ->
  exec mem N M sched = Some (tr, s) -> mpc s = MReturn ->
  submitted tr = seqZ 1 M
  ∧ (published tr).*1.*2 ≡ₚ submitted tr
  ∧ NoDup (published tr).*1.*2
  ∧ collected tr = (published tr).*2
  ∧ length (collected tr) = Z.to_nat M.
Proof.
  intros HN HM Hexec Hret.
  destruct (channels_made_dec mem M) as [[Hcap Hmem]|Hno]; [|by make_failed Hexec Hno].
  rewrite (exec_started mem _ M) in Hexec by lia.
  destruct (returned_results N M ltac:(lia) HM sched tr s ltac:(lia) Hexec Hret)
    as (Hsub & Hcl & Hcp & Hpp & Hcol & _).
  assert ((published tr).*1.*2 ≡ₚ submitted tr) as Hperm.
  { by rewrite <- Hpp, <- Hcp, Hcl, Hsub. }
  repeat split; try done.
  - rewrite Hperm, Hsub. apply NoDup_seqZ.
  - apply Permutation_length in Hperm.
    rewrite Hsub, !length_fmap, length_seqZ in Hperm.
    by rewrite Hcol, length_fmap.
Qed.

Lemma results_exactly_once_witness :
  (1 <= 3 < max_int) ∧ (0 <= 9 < max_int)
  ∧ exec demo_mem 3 9 demo_sched = Some (demo_trace, demo_final)
  ∧ mpc demo_final = MReturn
  ∧ collected demo_trace = [6; 4; 2; 12; 14; 16; 18; 10; 8]
  ∧ length (collected demo_trace) = 9%nat.
Proof.
  assert (1 <= 3 < max_int) as HN by (unfold max_int; lia).
  assert (0 <= 9 < max_int) as HM by (unfold max_int; lia).
  assert (exec demo_mem 3 9 demo_sched = Some (demo_trace, demo_final)) as He
    by (vm_compute; reflexivity).
  assert (mpc demo_final = MReturn) as Hr by reflexivity.
  destruct (results_exactly_once demo_mem 3 9 demo_sched demo_trace demo_final
              HN HM He Hr)
    as (_ & _ & _ & _ & Hlen).
  repeat split; try assumption; try reflexivity; apply HN || apply HM.
Defined.

(** ** Claiming of jobs *)

(** C2: at every point of every run no job has been claimed twice and no
    job has been announced twice, and every announced job was claimed (by
    the worker that announces it); when the run has returned, the claimed
    jobs are the submitted jobs [1..M] and all of them were announced. *)
Theorem job_processed_once (mem : nat) (N M : Z) (sched : list tid)
    (tr : list event) (s : state) :
  1 <= N < max_int -> 0 <= M < max_int ->
  exec mem N M sched = Some (tr, s) ->
  NoDup (claimed tr).*2
  ∧ NoDup (processed tr).*2
  ∧ processed tr ⊆+ claimed tr
  ∧ (mpc s = MReturn ->
     submitted tr = seqZ 1 M
     ∧ (claimed tr).*2 = submitted tr
     ∧ processed tr ≡ₚ claimed tr).
Proof.
  intros HN HM Hexec.
  destruct (channels_made_dec mem M) as [[Hcap Hmem]|Hno].
  2: { make_failed Hexec Hno. repeat split; try done; constructor. }
  rewrite (exec_started mem _ M) in Hexec by lia.
  destruct (hist_exec N M ltac:(lia) HM sched tr s Hexec) as [I H].
  split; [by eapply claims_nodup|].
  split; [by eapply processed_nodup|].
  split; [by eapply processed_claimed|].
  intros Hret.
  destruct (returned_results N M ltac:(lia) HM sched tr s ltac:(lia) Hexec Hret)
    as (Hsub & Hcl & Hcp & _).
  repeat split; [done | congruence | done].
Qed.

Lemma job_processed_once_witness :
  (1 <= 3 < max_int) ∧ (0 <= 9 < max_int)
  ∧ exec demo_mem 3 9 demo_sched = Some (demo_trace, demo_final)
  ∧ NoDup (processed demo_trace).*2
  ∧ processed demo_trace =
      [(3, 3); (2, 2); (1, 1); (1, 6); (1, 7); (1, 8); (1, 9); (2, 5); (3, 4)].
Proof.
  assert (1 <= 3 < max_int) as HN by (unfold max_int; lia).
  assert (0 <= 9 < max_int) as HM by (unfold max_int; lia).
  assert (exec demo_mem 3 9 demo_sched = Some (demo_trace, demo_final)) as He
    by (vm_compute; reflexivity).
  destruct (job_processed_once demo_mem 3 9 demo_sched demo_trace demo_final
              HN HM He)
    as (_ & Hnd & _).
  repeat split; try assumption; try reflexivity; apply HN || apply HM.
Defined.

(** ** The demo run *)

(** C10: in every run of the demo (three workers, jobs 1 to 9) every value
    sent on [results] is twice the job it was computed from, and when the
    run has returned the printed results are 2, 4, ..., 18 in some order. *)
Theorem demo_results_doubled (mem : nat) (sched : list tid) (tr : list event)
    (s : state) :
  exec mem 3 9 sched = Some (tr, s) ->
  Forall (fun x => x.2 = 2 * x.1.2) (published tr)
  ∧ (mpc s = MReturn -> collected tr ≡ₚ [2; 4; 6; 8; 10; 12; 14; 16; 18]).
Proof.
  intros Hexec.
  assert (3 < max_int) as HN by (unfold max_int; lia).
  assert (0 <= 9 < max_int) as HM by (unfold max_int; lia).
  destruct (channels_made_dec mem 9) as [[Hcap Hmem]|Hno].
  2: { make_failed Hexec Hno. split; [constructor | done]. }
  rewrite (exec_started mem _ 9) in Hexec by lia.
  destruct (hist_exec 3 9 HN HM sched tr s Hexec) as [I H].
  assert (Forall (fun x => x.2 = 2 * x.1.2) (published tr)) as Hdbl.
  { apply Forall_forall. intros x Hx.
    assert (1 <= x.1.2 <= 9) as Hr by (eapply published_jobs_range; eauto).
    pose proof (hist_doubled _ _ _ H) as Hd.
    rewrite Forall_forall in Hd. rewrite (Hd x Hx).
    unfold int_mul, int_wrap. rewrite Z.mod_small by lia. lia. }
  split; [done|]. intros Hret.
  destruct (returned_results 3 9 HN HM sched tr s ltac:(lia) Hexec Hret)
    as (_ & Hcl & Hcp & Hpp & _ & Hcol).
  rewrite Hcol, <- Hpp, <- Hcp, Hcl. done.
Qed.

Lemma demo_results_doubled_witness :
  exec demo_mem 3 9 demo_sched = Some (demo_trace, demo_final)
  ∧ mpc demo_final = MReturn
  ∧ collected demo_trace = [6; 4; 2; 12; 14; 16; 18; 10; 8]
  ∧ collected demo_trace ≡ₚ [2; 4; 6; 8; 10; 12; 14; 16; 18].
Proof.
  assert (exec demo_mem 3 9 demo_sched = Some (demo_trace, demo_final)) as He
    by (vm_compute; reflexivity).
  destruct (demo_results_doubled demo_mem demo_sched demo_trace demo_final He)
    as [_ Hp].
  repeat split; try assumption; try reflexivity. by apply Hp.
Defined.

(** ** The close of the result stream *)

(** C3: [close(results)] runs at most once in any run and exactly once in a
    run that has returned, and no run ever calls [close] on a channel that
    is closed already: no such panic is in any trace, [results] is closed
    exactly when its close has run, and from then on the goroutine that
    closed it has returned and no goroutine has a step that closes a
    channel or panics.  When the close runs, every worker [1..N] has called
    [wg.Done()], every claimed job has been announced and its result sent,
    and afterwards nothing more is sent. *)
Theorem results_closed_once_after_workers (mem : nat) (N M : Z)
    (sched : list tid) (tr : list event) (s : state) :
  N < max_int -> 0 <= M < max_int ->
  exec mem N M sched = Some (tr, s) ->
  (closes tr <= 1)%nat
  ∧ (PanicCloseOfClosed ∉ panics tr)
  ∧ closes tr = Nat.b2n (closed (results s))
  ∧ (closed (results s) = true ->
     closer s = CExit
     ∧ forall t e s', step N M s t = Some (e, s') ->
         e ≠ EvCloseResults ∧ e ≠ EvCloseJobs ∧ panic_of e = None)
  ∧ close_order N tr
  ∧ (mpc s = MReturn -> closes tr = 1%nat).
Proof.
  intros HN HM Hexec.
  destruct (channels_made_dec mem M) as [[Hcap Hmem]|Hno].
  2: { make_failed_as Hexec Hno p Hp. unfold closes, panics. simpl.
       split; [lia|]. split.
       { intros [<-|[]%elem_of_nil]%elem_of_cons. by destruct Hp as [[? _]|[? _]]. }
       do 2 (split; [done|]). split; [|done].
       intros pre post Heq. destruct pre as [|x [|y pre]]; done. }
  rewrite (exec_started mem _ M) in Hexec by lia.
  destruct (hist_exec N M HN HM sched tr s Hexec) as [I H].
  split; [by eapply closes_le_1|].
  split.
  { rewrite (hist_panics _ _ _ H), (inv_panic _ _ _ I). apply not_elem_of_nil. }
  split; [apply (hist_closes _ _ _ H)|].
  split.
  { intros Hcl. split; [by eapply closed_results_closer|].
    intros t e s' Hs.
    destruct (after_close_step N M s t e s' I Hcl Hs) as (_ & _ & Hc).
    pose proof (phase_after_close N M s I Hcl) as Hph.
    repeat split.
    - intros ->. done.
    - intros ->. apply (close_jobs_step N M) in Hs. lia.
    - by eapply step_no_panic. }
  split; [by eapply close_order_exec|].
  intros Hret. by destruct (returned_state N M tr s I H Hret) as (_ & _ & _ & _ & _ & _ & ?).
Qed.

Lemma results_closed_once_after_workers_witness :
  (3 < max_int) ∧ (0 <= 9 < max_int)
  ∧ exec demo_mem 3 9 demo_sched = Some (demo_trace, demo_final)
  ∧ closes demo_trace = 1%nat
  ∧ panics demo_trace = []
  ∧ demo_trace = take 58 demo_trace ++ EvCloseResults :: drop 59 demo_trace
  ∧ dones (take 58 demo_trace) ≡ₚ [1; 2; 3]
  ∧ published (drop 59 demo_trace) = []
  ∧ forall t, step 3 9 demo_final t = None.
Proof.
  assert (3 < max_int) as HN by (unfold max_int; lia).
  assert (0 <= 9 < max_int) as HM by (unfold max_int; lia).
  assert (exec demo_mem 3 9 demo_sched = Some (demo_trace, demo_final)) as He
    by (vm_compute; reflexivity).
  destruct (results_closed_once_after_workers demo_mem 3 9 demo_sched demo_trace
              demo_final HN HM He) as (_ & _ & _ & _ & Hco & Hone).
  destruct (Hco (take 58 demo_trace) (drop 59 demo_trace) eq_refl)
    as (Hd & _ & _ & Hp & _).
  split; [exact HN|]. split; [exact HM|]. split; [exact He|].
  split; [exact (Hone eq_refl)|]. split; [reflexivity|]. split; [reflexivity|].
  split; [exact Hd|]. split; [exact Hp|].
  intros [|[|[|[|i]]]|]; reflexivity.
Defined.

(** ** Termination *)



(** ** Degenerate pools *)



(** C7: with a single worker a run that has returned has printed the
    results in the order of submission: the printed results are the
    sequential map of [worker]'s doubling over the submitted batch [1..M]. *)
Theorem single_worker_sequential (mem : nat) (M : Z) (sched : list tid)
    (tr : list event) (s : state) :
  0 <= M < max_int ->
  exec mem 1 M sched = Some (tr, s) -> mpc s = MReturn ->
  submitted tr = seqZ 1 M
  ∧ collected tr = sequential_map (submitted tr)
  ∧ length (collected tr) = Z.to_nat M.
Proof.
  intros HM Hexec Hret.
  destruct (channels_made_dec mem M) as [[Hcap Hmem]|Hno]; [|by make_failed Hexec Hno].
  rewrite (exec_started mem _ M) in Hexec by lia.
  assert (1 < max_int) as HN by (unfold max_int; lia).
  destruct (returned_results 1 M HN HM sched tr s ltac:(lia) Hexec Hret)
    as (Hsub & _).
  pose proof (single_worker_order 1 M HN HM sched tr s eq_refl Hexec Hret) as Ho.
  unfold sequential_map. rewrite Ho.
  repeat split; [done|]. by rewrite length_fmap, Hsub, length_seqZ.
Qed.

Lemma single_worker_sequential_witness :
  (0 <= 5 < max_int)
  ∧ exec demo_mem 1 5 single_sched = Some (single_trace, single_final)
  ∧ mpc single_final = MReturn
  ∧ collected single_trace = [2; 4; 6; 8; 10]
  ∧ collected single_trace = sequential_map [1; 2; 3; 4; 5].
Proof.
  assert (0 <= 5 < max_int) as HM by (unfold max_int; lia).
  assert (exec demo_mem 1 5 single_sched = Some (single_trace, single_final)) as He
    by (vm_compute; reflexivity).
  destruct (single_worker_sequential demo_mem 5 single_sched single_trace
              single_final HM He eq_refl) as (_ & Ho & _).
  split; [exact HM|]. split; [exact He|]. split; [reflexivity|].
  split; [reflexivity | exact Ho].
Defined.

(** ** What the pool does not have *)




(** C8, as the specification has it, fails: on no machine does a run of
    the demo return with a job that was never started. *)
Lemma demo_never_cancelled : ¬ exists mem, cancelled_run mem 3 9.
Proof.
  intros (mem & sched & tr & s & Hexec & Hret & Hshort).
  assert (3 < max_int) as HN by (unfold max_int; lia).
  assert (0 <= 9 < max_int) as HM by (unfold max_int; lia).
  destruct (channels_made_dec mem 9) as [[Hcap Hmem]|Hno].
  2: { by make_failed Hexec Hno. }
  rewrite (exec_started mem 3 9) in Hexec by lia.
  destruct (returned_results 3 9 HN HM sched tr s ltac:(lia) Hexec Hret)
    as (_ & Hcl & Hcp & _).
  apply Permutation_length in Hcp. apply (f_equal length) in Hcl.
  rewrite length_fmap, length_seqZ in Hcl.
  unfold unprocessed in Hshort. lia.
Qed.

(** C8, amended: the pool has no cancellation.  A worker at the head of its
    loop takes the next queued job whenever it is scheduled, and in a run
    that has returned the WaitGroup counter has reached zero.  With at
    least one worker such a run has started every job: the count of
    unprocessed jobs is zero.  Jobs are left unprocessed only by a pool
    without workers, and then all [M] of them are, still in [jobs]. *)
Theorem every_job_started (mem : nat) (N M : Z) (sched : list tid)
    (tr : list event) (s : state) :
  N < max_int -> 0 <= M < max_int ->
  exec mem N M sched = Some (tr, s) ->
  (forall i g j rest,
     workers s !! i = Some g -> wpc g = WRange -> buf (jobs s) = j :: rest ->
     exists s', step N M s (TWorker i) = Some (EvClaim (wid g) j, s'))
  ∧ (mpc s = MReturn ->
     wg s = 0
     ∧ (1 <= N -> unprocessed M tr = 0 ∧ buf (jobs s) = [])
     ∧ (N <= 0 -> unprocessed M tr = M ∧ buf (jobs s) = seqZ 1 M)).
Proof.
  intros HN HM Hexec.
  destruct (channels_made_dec mem M) as [[Hcap Hmem]|Hno].
  2: { make_failed Hexec Hno. split; [|done]. by intros [|i] g j rest. }
  rewrite (exec_started mem _ M) in Hexec by lia.
  destruct (hist_exec N M HN HM sched tr s Hexec) as [I H].
  split.
  - intros i g j rest Hg Hw Hb. eapply claim_enabled; eauto.
    apply (inv_panic _ _ _ I).
  - intros Hret.
    destruct (returned_state N M tr s I H Hret) as (Hc & _).
    pose proof (inv_barrier _ _ _ I) as Hb. rewrite Hc in Hb.
    split; [done|]. split.
    + intros Hpos.
      destruct (returned_results N M HN HM sched tr s Hpos Hexec Hret)
        as (_ & Hcl & Hcp & _).
      apply Permutation_length in Hcp. apply (f_equal length) in Hcl.
      rewrite length_fmap, length_seqZ in Hcl.
      unfold unprocessed. split; [lia|]. by eapply jobs_drained; eauto.
    + intros Hidle.
      assert (claimed tr = []) as Hcl by (by eapply no_workers_exec).
      destruct (nothing_claimed M tr s H Hcl) as (Hp & _).
      pose proof (hist_claimed _ _ _ H) as Hj. rewrite Hcl, Hret in Hj.
      unfold unprocessed. rewrite Hp. simpl. split; [lia | done].
Qed.

Lemma every_job_started_witness :
  (3 < max_int) ∧ (0 <= 9 < max_int)
  ∧ exec demo_mem 3 9 demo_sched = Some (demo_trace, demo_final)
  ∧ mpc demo_final = MReturn
  ∧ unprocessed 9 demo_trace = 0.
Proof.
  assert (3 < max_int) as HN by (unfold max_int; lia).
  assert (0 <= 9 < max_int) as HM by (unfold max_int; lia).
  assert (exec demo_mem 3 9 demo_sched = Some (demo_trace, demo_final)) as He
    by (vm_compute; reflexivity).
  destruct (every_job_started demo_mem 3 9 demo_sched demo_trace demo_final
              HN HM He)
    as (_ & Hret).
  destruct (Hret eq_refl) as (_ & Hu & _).
  destruct (Hu ltac:(lia)) as (Hu' & _).
  split; [exact HN|]. split; [exact HM|]. split; [exact He|].
  split; [reflexivity | exact Hu'].
Defined.

(** ** Division *)

(** C9: [divide] is total; it returns an error exactly when [b == 0] (IEEE
    equality, so for [-0] too and not for NaN), and then the value is [0]
    and the error is the division-by-zero error. *)
Theorem divide_error_iff_zero_divisor (a b : float) :
  (is_Some (Divide.divide a b).2 <-> PrimFloat.eqb b 0 = true)
  ∧ ((Divide.divide a b).2 = None <-> PrimFloat.eqb b 0 = false)
  ∧ (is_Some (Divide.divide a b).2 <->
     Divide.divide a b = (0%float, Some "division by zero"%string))
  ∧ ((Divide.divide a b).2 = None <->
     Divide.divide a b = (PrimFloat.div a b, None)).
Proof.
  unfold Divide.divide. destruct (PrimFloat.eqb b 0); simpl.
  - repeat split; try done; try (by intros [? [=]]); by eexists.
  - repeat split; try done; by intros [? [=]].
Qed.

(** * Beyond the claims *)

(** ** Arithmetic of [int] *)

Lemma int_wrap_congr (a b : Z) :
  a mod 2 ^ 64 = b mod 2 ^ 64 -> int_wrap a = int_wrap b.
Proof.
  intros H. unfold int_wrap. f_equal.
  by rewrite <- (Zplus_mod_idemp_l a), <- (Zplus_mod_idemp_l b), H.
Qed.

Lemma int_wrap_mod (z : Z) : int_wrap z mod 2 ^ 64 = z mod 2 ^ 64.
Proof.
  unfold int_wrap.
  rewrite <- Zminus_mod_idemp_l, Z.mod_mod by lia.
  rewrite Zminus_mod_idemp_l. f_equal. lia.
Qed.

Lemma int_wrap_small (z : Z) : - 2 ^ 63 <= z <= max_int -> int_wrap z = z.
Proof. unfold int_wrap, max_int. intros H. rewrite Z.mod_small by lia. lia. Qed.

Lemma int_wrap_range (z : Z) : - 2 ^ 63 <= int_wrap z <= max_int.
Proof.
  unfold int_wrap, max_int.
  pose proof (Z.mod_pos_bound (z + 2 ^ 63) (2 ^ 64) ltac:(lia)). lia.
Qed.

Lemma int_wrap_add_l (a b : Z) : int_wrap (int_wrap a + b) = int_wrap (a + b).
Proof.
  apply int_wrap_congr.
  by rewrite <- Zplus_mod_idemp_l, int_wrap_mod, Zplus_mod_idemp_l.
Qed.

Lemma int_wrap_add_r (a b : Z) : int_wrap (a + int_wrap b) = int_wrap (a + b).
Proof. by rewrite (Z.add_comm a), int_wrap_add_l, Z.add_comm. Qed.

Lemma int_wrap_mul_l (a b : Z) : int_wrap (int_wrap a * b) = int_wrap (a * b).
Proof.
  apply int_wrap_congr.
  by rewrite <- Zmult_mod_idemp_l, int_wrap_mod, Zmult_mod_idemp_l.
Qed.

Lemma int_wrap_mul_r (a b : Z) : int_wrap (a * int_wrap b) = int_wrap (a * b).
Proof. by rewrite (Z.mul_comm a), int_wrap_mul_l, Z.mul_comm. Qed.

(** ** [sum] *)
Lemma sum_from_wrap (total : Z) (nums : list Z) :
  int_wrap (Variadic.sum_from total nums) = int_wrap (total + total_of nums).
Proof.
  revert total. induction nums as [|num nums IH]; intros total; simpl.
  - by rewrite Z.add_0_r.
  - rewrite IH. unfold int_add. rewrite int_wrap_add_l. f_equal. lia.
Qed.

Lemma sum_from_range (total : Z) (nums : list Z) :
  - 2 ^ 63 <= total <= max_int ->
  - 2 ^ 63 <= Variadic.sum_from total nums <= max_int.
Proof.
  revert total. induction nums as [|num nums IH]; intros total H; simpl; [done|].
  apply IH, int_wrap_range.
Qed.

(** X1: [sum] returns the sum of its arguments reduced to 64 bits in two's
    complement, whatever the partial sums do. *)
Theorem sum_is_wrapped_total (nums : list Z) :
  Variadic.sum nums = int_wrap (total_of nums).
Proof.
  unfold Variadic.sum.
  rewrite <- (int_wrap_small (Variadic.sum_from 0 nums)).
  - by rewrite sum_from_wrap.
  - apply sum_from_range. unfold max_int. lia.
Qed.

Lemma total_of_app a b : total_of (a ++ b) = total_of a + total_of b.
Proof. unfold total_of. induction a; simpl; lia. Qed.

Lemma total_of_perm a b : a ≡ₚ b -> total_of a = total_of b.
Proof. unfold total_of. induction 1; simpl; lia. Qed.

(** X3: the result of [sum] does not depend on the order of its arguments. *)
Theorem sum_order_irrelevant (a b : list Z) :
  a ≡ₚ b -> Variadic.sum a = Variadic.sum b.
Proof. intros H. by rewrite !sum_is_wrapped_total, (total_of_perm a b H). Qed.

Lemma sum_order_irrelevant_witness :
  [1; 2; 3] ≡ₚ [3; 1; 2] ∧ Variadic.sum [1; 2; 3] = Variadic.sum [3; 1; 2].
Proof.
  assert ([1; 2; 3] ≡ₚ [3; 1; 2]) as H by solve_Permutation.
  split; [exact H | exact (sum_order_irrelevant _ _ H)].
Defined.

Lemma sum_app (a b : list Z) :
  Variadic.sum (a ++ b) = int_add (Variadic.sum a) (Variadic.sum b).
Proof.
  rewrite !sum_is_wrapped_total, total_of_app. unfold int_add.
  by rewrite int_wrap_add_l, int_wrap_add_r.
Qed.

(** X2: when the sum of the arguments fits an [int], [sum] returns it exactly,
    also when a partial sum overflows on the way. *)
Theorem sum_exact (nums : list Z) :
  - 2 ^ 63 <= total_of nums <= max_int -> Variadic.sum nums = total_of nums.
Proof. intros H. by rewrite sum_is_wrapped_total, int_wrap_small. Qed.

Lemma sum_exact_witness :
  (- 2 ^ 63 <= total_of [max_int; 1; -2] <= max_int)
  ∧ Variadic.sum [max_int; 1; -2] = max_int - 1.
Proof.
  assert (- 2 ^ 63 <= total_of [max_int; 1; -2] <= max_int) as H
    by (unfold total_of, max_int; simpl; lia).
  split; [exact H | exact (sum_exact _ H)].
Defined.

(** ** [processData] *)
Lemma substring_all (s : string) : String.substring 0 (String.length s) s = s.
Proof. induction s as [|c s IH]; simpl; [done|]. by rewrite IH. Qed.

(** X5: on a non-empty input [processData] succeeds; the count is the length
    of the input in bytes, the result is 11 bytes longer than the input, and
    the input is the result without its first 11 bytes. *)
Theorem processData_round_trip (input : string) :
  input <> ""%string ->
  let '(result, count, err) := processData input in
  err = None
  ∧ 1 <= count
  ∧ count = Z.of_nat (String.length input)
  ∧ Z.of_nat (String.length result) = count + 11
  ∧ String.substring 11 (Z.to_nat count) result = input.
Proof.
  intros Hne. unfold processData.
  destruct (String.eqb_spec input "") as [->|_]; [done|].
  repeat split.
  - destruct input; [done|]. simpl. lia.
  - simpl. lia.
  - rewrite Nat2Z.id. simpl. apply substring_all.
Qed.

Lemma processData_round_trip_witness :
  "hello"%string <> ""%string
  ∧ processData "hello" = ("processed: hello"%string, 5, None)
  ∧ String.substring 11 5 "processed: hello" = "hello"%string.
Proof.
  assert ("hello"%string <> ""%string) as H by discriminate.
  pose proof (processData_round_trip "hello" H) as P. simpl in P.
  destruct P as (_ & _ & _ & _ & P).
  split; [exact H|]. split; [reflexivity | exact P].
Defined.

(** X4: [processData] returns an error exactly on the empty input, and then
    the other results keep their zero values; the count is zero only then. *)
Theorem processData_error_iff_empty (input : string) :
  (is_Some (processData input).2 <-> input = ""%string)
  ∧ (is_Some (processData input).2 ->
     processData input = (""%string, 0, Some "input cannot be empty"%string))
  ∧ ((processData input).1.2 = 0 <-> input = ""%string).
Proof.
  unfold processData.
  destruct (String.eqb_spec input "") as [->|Hne]; simpl.
  - repeat split; try done; by eexists.
  - repeat split; try done; try (by intros [? [=]]).
    destruct input; [done|]. simpl. lia.
Qed.


(** ** The closures of [demonstrateClosures] *)
(** X6: [n] calls of [increment] return [counter + 1, ..., counter + n] and
    leave [counter + n] in the captured variable, as long as that fits an
    [int]. *)
Theorem increments_count (n : nat) (counter : Z) :
  - 2 ^ 63 <= counter -> counter + Z.of_nat n <= max_int ->
  increments n counter = (seqZ (counter + 1) (Z.of_nat n), counter + Z.of_nat n).
Proof.
  revert counter. induction n as [|n IH]; intros counter Hlo Hhi.
  - simpl. f_equal. lia.
  - cbn [increments increment].
    rewrite int_add_small by (unfold max_int in *; lia).
    rewrite IH by lia.
    rewrite (seqZ_cons (counter + 1)) by lia.
    f_equal; [|lia]. f_equal. f_equal; lia.
Qed.

Lemma increments_count_witness :
  (- 2 ^ 63 <= 0) ∧ (0 + Z.of_nat 3 <= max_int)
  ∧ increments 3 0 = ([1; 2; 3], 3).
Proof.
  assert (- 2 ^ 63 <= 0) as Hlo by lia.
  assert (0 + Z.of_nat 3 <= max_int) as Hhi by (unfold max_int; lia).
  split; [exact Hlo|]. split; [exact Hhi | exact (increments_count 3 0 Hlo Hhi)].
Defined.

(** X7: closures made by [multiplier] compose to the closure of the product
    of their factors, in either order, wrap-around included. *)
Theorem multiplier_compose (a b x : Z) :
  multiplier a (multiplier b x) = multiplier (int_mul b a) x
  ∧ multiplier a (multiplier b x) = multiplier b (multiplier a x).
Proof.
  unfold multiplier, int_mul.
  rewrite !int_wrap_mul_l, int_wrap_mul_r. split; f_equal; lia.
Qed.

(** ** The buffered channel of [demonstrateChannels] *)
Lemma send_all_room (c : chan) (vs : list Z) :
  closed c = false ->
  Z.of_nat (length (buf c) + length vs) <= cap c ->
  send_all c vs = SendOk (Chan (buf c ++ vs) (cap c) false).
Proof.
  revert c. induction vs as [|v vs IH]; intros [b k cl] Hcl Hroom; simpl in *.
  - subst cl. by rewrite app_nil_r.
  - subst cl. unfold chan_send. simpl.
    destruct (Z.ltb_spec (Z.of_nat (length b)) k) as [_|Hge]; [|lia].
    rewrite IH; simpl; [|done|rewrite length_app; simpl; lia].
    by rewrite <- (assoc_L (++)).
Qed.

Lemma recv_n_buffer (vs rest : list Z) (k : Z) (cl : bool) :
  recv_n (length vs) (Chan (vs ++ rest) k cl) = Some (vs, Chan rest k cl).
Proof.
  induction vs as [|v vs IH]; simpl; [done|].
  unfold chan_recv. simpl. by rewrite IH.
Qed.

(** X8: on a fresh channel of capacity [k], which is what [make] returns for
    [k] up to [max_chan] when the memory suffices, up to [k] sends in a
    row complete without a receiver; the values come back in the order
    they were sent and one more receive would block; one more send blocks
    exactly when [k] values are buffered. *)
Theorem buffered_round_trip (k : Z) (vs : list Z) :
  Z.of_nat (length vs) <= k ->
  (forall mem, k <= max_chan -> k <= Z.of_nat mem ->
     make_chan mem k = MakeOk (new_chan k) (mem - Z.to_nat k))
  ∧ exists c,
      send_all (new_chan k) vs = SendOk c
      ∧ recv_n (length vs) c = Some (vs, new_chan k)
      ∧ recv_n (S (length vs)) c = None
      ∧ (forall v, chan_send c v = SendBlocked <-> Z.of_nat (length vs) = k).
Proof.
  intros Hk. split.
  { intros mem Hmax Hmem. unfold make_chan.
    destruct (Z.ltb_spec k 0); [lia|].
    destruct (Z.ltb_spec max_chan k); [lia|]. simpl.
    by destruct (Z.leb_spec k (Z.of_nat mem)); [|lia]. }
  exists (Chan vs k false).
  split; [by apply (send_all_room (new_chan k) vs)|].
  split; [by rewrite <- (app_nil_r vs) at 2; apply recv_n_buffer|].
  split.
  - replace (S (length vs)) with (length vs + 1)%nat by lia.
    revert Hk. clear. induction vs as [|v vs IH]; intros Hk; simpl; [done|].
    unfold chan_recv. simpl. simpl in IH. rewrite IH; [done|]. simpl in Hk. lia.
  - intros v. unfold chan_send. simpl.
    destruct (Z.ltb_spec (Z.of_nat (length vs)) k); split; try done; lia.
Qed.

Lemma buffered_round_trip_witness :
  Z.of_nat (length [1; 2; 3]) <= 3
  ∧ make_chan 10 3 = MakeOk (new_chan 3) 7
  ∧ exists c,
      send_all (new_chan 3) [1; 2; 3] = SendOk c
      ∧ recv_n 3 c = Some ([1; 2; 3], new_chan 3)
      ∧ chan_send c 4 = SendBlocked.
Proof.
  assert (Z.of_nat (length [1; 2; 3]) <= 3) as H by (simpl; lia).
  destruct (buffered_round_trip 3 [1; 2; 3] H) as (Hm & c & Hs & Hr & _ & Hb).
  split; [exact H|]. split; [reflexivity|]. exists c.
  split; [exact Hs|]. split; [exact Hr|]. apply Hb. reflexivity.
Defined.

(** ** [demonstrateDefer] *)
Lemma defer_loop_spec (fuel : nat) (i n : Z) (f : frame) :
  0 <= i <= n -> n < max_int -> (Z.to_nat (n - i) < fuel)%nat ->
  defer_loop fuel i n f =
  Frame (printed f)
        (((fun v _ => DeferredValue v) <$> reverse (seqZ i (n - i))) ++ deferred f).
Proof.
  revert i f. induction fuel as [|fuel IH]; intros i f Hi Hn Hfuel; [lia|].
  simpl. destruct (Z.ltb_spec i n) as [Hlt|Hge].
  - rewrite int_add_small by (unfold max_int in *; lia).
    rewrite IH by lia. simpl. f_equal.
    rewrite (seqZ_cons i (n - i)) by lia. rewrite reverse_cons, fmap_app.
    rewrite <- (assoc_L (++)). simpl.
    by replace (Z.pred (n - i)) with (n - (i + 1)) by lia.
  - replace (n - i) with 0 by lia. by destruct f.
Qed.

(** X9: [demonstrateDefer] prints its regular lines first and then the
    deferred calls, the last deferred first: the loop values from [n - 1]
    down to [0], the cleanup of the file, and the three defers of the
    beginning in reverse. *)
Theorem deferred_calls_run_last_in_first_out (n : Z) :
  0 <= n < max_int ->
  demonstrateDefer n =
  [DeferBanner; RegularStatement; DeferInLoop]
  ++ (DeferredValue <$> reverse (seqZ 0 n))
  ++ [CleaningUp "example.txt"; ThirdDefer; SecondDefer; FirstDefer].
Proof.
  intros Hn. unfold demonstrateDefer.
  rewrite defer_loop_spec by lia.
  unfold return_from. simpl. do 3 f_equal.
  rewrite Z.sub_0_r, map_app. f_equal.
  rewrite <- list_fmap_compose. done.
Qed.

Lemma deferred_calls_run_last_in_first_out_witness :
  (0 <= 3 < max_int)
  ∧ demonstrateDefer 3 =
    [DeferBanner; RegularStatement; DeferInLoop;
     DeferredValue 2; DeferredValue 1; DeferredValue 0;
     CleaningUp "example.txt"; ThirdDefer; SecondDefer; FirstDefer].
Proof.
  assert (0 <= 3 < max_int) as H by (unfold max_int; lia).
  split; [exact H | exact (deferred_calls_run_last_in_first_out 3 H)].
Defined.

(** ** The slices of [demonstrateSlicesAndMaps] *)
Lemma take_insert_commute {A} (l : list A) (n i : nat) (x : A) :
  take n (<[i := x]> l) = <[i := x]> (take n l).
Proof.
  destruct (decide (i < n)%nat).
  - by apply take_insert_lt.
  - rewrite take_insert_ge by lia. symmetry. apply list_insert_ge.
    pose proof (length_take l n). lia.
Qed.

(** X10: a write through [sub := s[lo:hi]] at index [i] shows in [s] at index
    [lo + i] (if that is within the length of [s]) and nowhere else, and in
    [sub] at index [i]; [sub] has length [hi - lo] and capacity
    [cap(s) - lo]. *)
Theorem write_through_shared_array (arr : list Z) (s : slice) (lo hi i : Z) (v : Z) :
  slice_wf arr s -> 0 <= lo <= hi ∧ hi <= Z.of_nat (s_cap s) -> 0 <= i < hi - lo ->
  exists sub,
    slice_sub s lo hi = Some sub
    ∧ Z.of_nat (s_len sub) = hi - lo
    ∧ Z.of_nat (s_cap sub) = Z.of_nat (s_cap s) - lo
    ∧ write_through arr s lo hi i v =
      Some (<[Z.to_nat (lo + i) := v]> (slice_elems arr s),
            <[Z.to_nat i := v]> (slice_elems arr sub)).
Proof.
  intros [Hlen Hcap] Hb Hi. unfold write_through, slice_sub, slice_set.
  destruct (Z.leb_spec 0 lo); [|lia].
  destruct (Z.leb_spec lo hi); [|lia].
  destruct (Z.leb_spec hi (Z.of_nat (s_cap s))); [|lia]. simpl.
  eexists. split; [done|]. simpl. do 2 (split; [lia|]).
  destruct (Z.leb_spec 0 i); [|lia].
  destruct (Z.ltb_spec i (Z.of_nat (Z.to_nat (hi - lo)))); [|lia]. simpl.
  f_equal. unfold slice_elems. simpl. f_equal.
  - rewrite drop_insert_ge by lia.
    replace (s_off s + Z.to_nat lo + Z.to_nat i - s_off s)%nat
      with (Z.to_nat (lo + i)) by lia.
    apply take_insert_commute.
  - rewrite drop_insert_ge by lia.
    replace (s_off s + Z.to_nat lo + Z.to_nat i - (s_off s + Z.to_nat lo))%nat
      with (Z.to_nat i) by lia.
    apply take_insert_commute.
Qed.

Lemma write_through_shared_array_witness :
  slice_wf [1; 2; 3; 4; 5; 0] (Slice 0 5 6)
  ∧ (0 <= 1 <= 4 ∧ 4 <= Z.of_nat 6) ∧ (0 <= 0 < 4 - 1)
  ∧ write_through [1; 2; 3; 4; 5; 0] (Slice 0 5 6) 1 4 0 99
    = Some ([1; 99; 3; 4; 5], [99; 3; 4]).
Proof.
  assert (slice_wf [1; 2; 3; 4; 5; 0] (Slice 0 5 6)) as Hwf
    by (unfold slice_wf; simpl; lia).
  assert (0 <= 1 <= 4 ∧ 4 <= Z.of_nat 6) as Hb by lia.
  assert (0 <= 0 < 4 - 1) as Hi by lia.
  destruct (write_through_shared_array _ _ 1 4 0 99 Hwf Hb Hi)
    as (sub & Hsub & _ & _ & Hw).
  injection Hsub as <-.
  split; [exact Hwf|]. split; [exact Hb|]. split; [exact Hi | exact Hw].
Defined.

(** X11: the bounds checks keep a write through a sub-slice inside the
    array.  Slicing and writing go through exactly when
    [0 <= lo <= hi <= cap(s)] and [0 <= i < hi - lo], and panic otherwise,
    on a negative bound or index too; when they go through, the sub-slice
    ends within the capacity of [s], the array keeps its length, the
    written value is in the array at the offset of [s] plus [lo + i] and
    is read back through the sub-slice, every other element of the array
    is unchanged, and the write is seen through [s] exactly when [lo + i]
    is below the length of [s]. *)
Theorem write_through_bounds (arr : list Z) (s : slice) (lo hi i : Z) (v : Z) :
  slice_wf arr s ->
  (is_Some (write_through arr s lo hi i v)
   <-> (0 <= lo <= hi ∧ hi <= Z.of_nat (s_cap s)) ∧ 0 <= i < hi - lo)
  ∧ forall sub arr',
      slice_sub s lo hi = Some sub -> slice_set arr sub i v = Some arr' ->
      slice_wf arr' sub
      ∧ (s_off sub + s_cap sub = s_off s + s_cap s)%nat
      ∧ length arr' = length arr
      ∧ arr' !! (s_off s + Z.to_nat (lo + i))%nat = Some v
      ∧ (forall k, k ≠ (s_off s + Z.to_nat (lo + i))%nat -> arr' !! k = arr !! k)
      ∧ slice_get arr' sub i = Some v
      ∧ (slice_get arr' s (lo + i) = Some v <-> lo + i < Z.of_nat (s_len s))
      ∧ (Z.of_nat (s_len s) <= lo + i -> slice_elems arr' s = slice_elems arr s).
Proof.
  intros [Hlen Hcap]. split.
  - unfold write_through, slice_sub, slice_set.
    destruct (Z.leb_spec 0 lo); simpl.
    2: { split; [by intros [? [=]] | lia]. }
    destruct (Z.leb_spec lo hi); simpl.
    2: { split; [by intros [? [=]] | lia]. }
    destruct (Z.leb_spec hi (Z.of_nat (s_cap s))); simpl.
    2: { split; [by intros [? [=]] | lia]. }
    destruct (Z.leb_spec 0 i); simpl.
    2: { split; [by intros [? [=]] | lia]. }
    destruct (Z.ltb_spec i (Z.of_nat (Z.to_nat (hi - lo)))); simpl.
    + split; [lia | by eexists].
    + split; [by intros [? [=]] | lia].
  - intros sub arr'. unfold slice_sub, slice_set, slice_get.
    destruct (Z.leb_spec 0 lo); simpl; [|done].
    destruct (Z.leb_spec lo hi); simpl; [|done].
    destruct (Z.leb_spec hi (Z.of_nat (s_cap s))); simpl; [|done].
    intros [= <-]. simpl.
    destruct (Z.leb_spec 0 i); simpl; [|done].
    destruct (Z.ltb_spec i (Z.of_nat (Z.to_nat (hi - lo)))); simpl; [|done].
    intros [= <-].
    replace (s_off s + Z.to_nat lo + Z.to_nat i)%nat
      with (s_off s + Z.to_nat (lo + i))%nat by lia.
    assert (s_off s + Z.to_nat (lo + i) < length arr)%nat as Hin by lia.
    split; [unfold slice_wf; simpl; rewrite length_insert; lia|].
    split; [lia|].
    split; [apply length_insert|].
    split; [by apply list_lookup_insert_eq|].
    split; [intros k Hk; by apply list_lookup_insert_ne|].
    split; [by apply list_lookup_insert_eq|].
    split.
    + destruct (Z.leb_spec 0 (lo + i)); [|lia]. simpl.
      destruct (Z.ltb_spec (lo + i) (Z.of_nat (s_len s))); split; try done; try lia.
      intros _. by apply list_lookup_insert_eq.
    + intros Hout. unfold slice_elems.
      rewrite drop_insert_ge by lia. rewrite take_insert_ge; [done | lia].
Qed.

Lemma write_through_bounds_witness :
  slice_wf [1; 2; 3; 4; 5; 0] (Slice 0 5 6)
  ∧ is_Some (write_through [1; 2; 3; 4; 5; 0] (Slice 0 5 6) 1 4 0 99)
  ∧ write_through [1; 2; 3; 4; 5; 0] (Slice 0 5 6) (-1) 2 0 99 = None
  ∧ write_through [1; 2; 3; 4; 5; 0] (Slice 0 5 6) 1 4 (-1) 99 = None
  ∧ write_through [1; 2; 3; 4; 5; 0] (Slice 0 5 6) 1 7 0 99 = None
  ∧ write_through [1; 2; 3; 4; 5; 0] (Slice 0 5 6) 1 6 4 99
    = Some ([1; 2; 3; 4; 5], [2; 3; 4; 5; 99]).
Proof.
  assert (slice_wf [1; 2; 3; 4; 5; 0] (Slice 0 5 6)) as Hwf
    by (unfold slice_wf; simpl; lia).
  destruct (write_through_bounds _ _ 1 4 0 99 Hwf) as [Hiff _].
  split; [exact Hwf|].
  split; [apply Hiff; simpl; lia|].
  repeat split; reflexivity.
Defined.

(** ** More on the worker pool *)
(** X12: in the pool no send ever waits: whenever [demonstrateWorkerPool] is
    about to send a job, and whenever a worker is about to send a result,
    the channel is open and its buffer has room. *)
Theorem pool_sends_never_block (mem : nat) (N M : Z) (sched : list tid)
    (tr : list event) (s : state) :
  N < max_int -> 0 <= M < max_int ->
  exec mem N M sched = Some (tr, s) ->
  (forall j, mpc s = MSendLoop j -> j <= M ->
     exists c, chan_send (jobs s) j = SendOk c)
  ∧ (forall i g j, workers s !! i = Some g -> wpc g = WSend j ->
       exists c, chan_send (results s) (int_mul j 2) = SendOk c).
Proof.
  intros HN HM Hexec.
  destruct (channels_made_dec mem M) as [[Hfit Hmem]|Hno].
  2: { make_failed Hexec Hno. split; [done|]. by intros [|i] g j. }
  rewrite (exec_started mem _ M) in Hexec by lia.
  destruct (hist_exec N M HN HM sched tr s Hexec) as [I H].
  split.
  - intros j Hpc Hj.
    pose proof (jobs_room N M HM tr s I H) as Hroom.
    pose proof (inv_jobs_closed _ _ _ I) as Hcl.
    pose proof (inv_cap_jobs _ _ _ I) as Hcap.
    rewrite Hpc in Hroom, Hcl. simpl in Hroom, Hcl.
    unfold chan_send. rewrite Hcl, Hcap.
    destruct (Z.ltb_spec (Z.of_nat (length (buf (jobs s)))) M); [by eexists | lia].
  - intros i g j Hg Hw.
    assert (Z.of_nat (length (buf (results s))) < M) as Hroom
      by (eapply results_room; eauto).
    pose proof (inv_cap_results _ _ _ I) as Hcap.
    assert (closed (results s) = false) as Hcl.
    { destruct (closed (results s)) eqn:Hcl; [|done].
      pose proof (closed_results_closer N M s I Hcl) as Hc.
      destruct (barrier_passed N M s I (or_intror Hc)) as [Hex _].
      pose proof (Forall_lookup_1 _ _ _ _ Hex Hg) as Hx. simpl in Hx. congruence. }
    unfold chan_send. rewrite Hcl, Hcap.
    destruct (Z.ltb_spec (Z.of_nat (length (buf (results s)))) M); [by eexists | lia].
Qed.

Lemma pool_sends_never_block_witness :
  (3 < max_int) ∧ (0 <= 9 < max_int)
  ∧ exec demo_mem 3 9 (take 23 demo_sched)
    = Some (take 23 demo_trace, (run_of demo_mem 3 9 (take 23 demo_sched)).2)
  ∧ workers (run_of demo_mem 3 9 (take 23 demo_sched)).2 !! 2%nat
    = Some (Goroutine 3 (WSend 3))
  ∧ exists c,
      chan_send (results (run_of demo_mem 3 9 (take 23 demo_sched)).2) (int_mul 3 2)
      = SendOk c.
Proof.
  assert (3 < max_int) as HN by (unfold max_int; lia).
  assert (0 <= 9 < max_int) as HM by (unfold max_int; lia).
  assert (exec demo_mem 3 9 (take 23 demo_sched)
          = Some (take 23 demo_trace, (run_of demo_mem 3 9 (take 23 demo_sched)).2)) as He
    by (vm_compute; reflexivity).
  assert (workers (run_of demo_mem 3 9 (take 23 demo_sched)).2 !! 2%nat
          = Some (Goroutine 3 (WSend 3))) as Hg by reflexivity.
  destruct (pool_sends_never_block demo_mem 3 9 _ _ _ HN HM He) as [_ Hw].
  split; [exact HN|]. split; [exact HM|]. split; [exact He|].
  split; [exact Hg | exact (Hw 2%nat _ 3 Hg eq_refl)].
Defined.

(** X13: at every point of a run the jobs sent are the jobs claimed, in that
    order, followed by the jobs still in [jobs]; the values sent on
    [results] are those received, in that order, followed by those still in
    [results]; and the results printed are those received, but for at most
    the last one. *)
Theorem pool_channels_fifo (mem : nat) (N M : Z) (sched : list tid)
    (tr : list event) (s : state) :
  N < max_int -> 0 <= M < max_int ->
  exec mem N M sched = Some (tr, s) ->
  submitted tr = (claimed tr).*2 ++ buf (jobs s)
  ∧ (published tr).*2 = received tr ++ buf (results s)
  ∧ collected tr `prefix_of` received tr
  ∧ (length (received tr) <= length (collected tr) + 1)%nat.
Proof.
  intros HN HM Hexec.
  destruct (channels_made_dec mem M) as [[Hfit Hmem]|Hno].
  2: { make_failed Hexec Hno. by repeat split; simpl; try lia. }
  rewrite (exec_started mem _ M) in Hexec by lia.
  destruct (hist_exec N M HN HM sched tr s Hexec) as [I H].
  pose proof (hist_collected _ _ _ H) as Hc.
  split; [by rewrite (hist_submitted _ _ _ H), (hist_claimed _ _ _ H)|].
  split; [apply (hist_received _ _ _ H)|].
  split; [rewrite Hc; by apply prefix_app_r|].
  rewrite Hc, length_app. destruct (mpc s); simpl; lia.
Qed.

Lemma pool_channels_fifo_witness :
  (3 < max_int) ∧ (0 <= 9 < max_int)
  ∧ exec demo_mem 3 9 (take 23 demo_sched)
    = Some (take 23 demo_trace, (run_of demo_mem 3 9 (take 23 demo_sched)).2)
  ∧ submitted (take 23 demo_trace)
    = [1; 2; 3] ++ buf (jobs (run_of demo_mem 3 9 (take 23 demo_sched)).2)
  ∧ buf (jobs (run_of demo_mem 3 9 (take 23 demo_sched)).2) = [4; 5; 6; 7; 8; 9].
Proof.
  assert (3 < max_int) as HN by (unfold max_int; lia).
  assert (0 <= 9 < max_int) as HM by (unfold max_int; lia).
  assert (exec demo_mem 3 9 (take 23 demo_sched)
          = Some (take 23 demo_trace, (run_of demo_mem 3 9 (take 23 demo_sched)).2)) as He
    by (vm_compute; reflexivity).
  destruct (pool_channels_fifo demo_mem 3 9 _ _ _ HN HM He) as (Hs & _).
  split; [exact HN|]. split; [exact HM|]. split; [exact He|].
  split; [exact Hs | reflexivity].
Defined.

(** X14: every printed result is twice a job between 1 and [M] that some worker
    has announced before. *)
Theorem result_lines_follow_processing_lines (mem : nat) (N M : Z)
    (sched : list tid) (tr : list event) (s : state) (r : Z) :
  N < max_int -> 0 <= M < max_int ->
  exec mem N M sched = Some (tr, s) ->
  r ∈ collected tr ->
  exists w j, (w, j) ∈ processed tr ∧ 1 <= j <= M ∧ r = int_mul j 2.
Proof.
  intros HN HM Hexec Hr.
  destruct (channels_made_dec mem M) as [[Hfit Hmem]|Hno].
  2: { make_failed Hexec Hno. by apply elem_of_nil in Hr. }
  rewrite (exec_started mem _ M) in Hexec by lia.
  destruct (hist_exec N M HN HM sched tr s Hexec) as [I H].
  assert (r ∈ (published tr).*2) as Hp.
  { rewrite (hist_received _ _ _ H), (hist_collected _ _ _ H).
    apply elem_of_app. left. apply elem_of_app. by left. }
  apply list_elem_of_fmap in Hp as ([[w j] r'] & -> & Hx).
  exists w, j. split.
  - rewrite (hist_published _ _ _ H). apply elem_of_app. left.
    by apply (list_elem_of_fmap_2 fst) in Hx.
  - split.
    + by eapply (published_jobs_range N M) in Hx.
    + pose proof (hist_doubled _ _ _ H) as Hd. rewrite Forall_forall in Hd.
      apply (Hd _ Hx).
Qed.

Lemma result_lines_follow_processing_lines_witness :
  (3 < max_int) ∧ (0 <= 9 < max_int)
  ∧ exec demo_mem 3 9 demo_sched = Some (demo_trace, demo_final)
  ∧ 6 ∈ collected demo_trace
  ∧ exists w j, (w, j) ∈ processed demo_trace ∧ 1 <= j <= 9 ∧ 6 = int_mul j 2.
Proof.
  assert (3 < max_int) as HN by (unfold max_int; lia).
  assert (0 <= 9 < max_int) as HM by (unfold max_int; lia).
  assert (exec demo_mem 3 9 demo_sched = Some (demo_trace, demo_final)) as He
    by (vm_compute; reflexivity).
  assert (6 ∈ collected demo_trace) as Hr by (vm_compute; constructor).
  split; [exact HN|]. split; [exact HM|]. split; [exact He|].
  split; [exact Hr|].
  exact (result_lines_follow_processing_lines demo_mem 3 9 _ _ _ 6 HN HM He Hr).
Defined.

(** X15: the WaitGroup counter is the number of workers that have not returned
    (plus one between [wg.Add(1)] and the [go] statement); it stays between
    0 and [N], and it is zero with no worker left once [results] is closed. *)
Theorem waitgroup_counts_live_workers (mem : nat) (N M : Z)
    (sched : list tid) (tr : list event) (s : state) :
  N < max_int -> 0 <= M < max_int ->
  exec mem N M sched = Some (tr, s) ->
  wg s = Z.of_nat (length (live_ids (workers s))) + pending_go (mpc s)
  ∧ 0 <= wg s <= Z.max 0 N
  ∧ (closed (results s) = true -> wg s = 0 ∧ live_ids (workers s) = []).
Proof.
  intros HN HM Hexec.
  destruct (channels_made_dec mem M) as [[Hfit Hmem]|Hno].
  2: { make_failed Hexec Hno. simpl. repeat split; try done; lia. }
  rewrite (exec_started mem _ M) in Hexec by lia.
  destruct (hist_exec N M HN HM sched tr s Hexec) as [I H].
  pose proof (inv_wg _ _ _ I) as Hwg. pose proof (inv_main _ _ _ I) as Hm.
  assert (length (live_ids (workers s)) <= length (workers s))%nat as Hle.
  { unfold live_ids. generalize (workers s). intros ws.
    induction ws as [|g ws IH]; [done|].
    rewrite bind_cons, length_app. unfold live_of at 1.
    destruct (wpc g); simpl; lia. }
  split; [done|]. split.
  - destruct (mpc s); simpl in *; lia.
  - intros Hcl. pose proof (closed_results_closer N M s I Hcl) as Hc.
    pose proof (inv_barrier _ _ _ I) as Hb. rewrite Hc in Hb.
    split; [done|]. apply length_zero_iff_nil. destruct (mpc s); simpl in *; lia.
Qed.

Lemma waitgroup_counts_live_workers_witness :
  (3 < max_int) ∧ (0 <= 9 < max_int)
  ∧ exec demo_mem 3 9 (take 23 demo_sched)
    = Some (take 23 demo_trace, (run_of demo_mem 3 9 (take 23 demo_sched)).2)
  ∧ wg (run_of demo_mem 3 9 (take 23 demo_sched)).2 = 3
  ∧ 0 <= wg (run_of demo_mem 3 9 (take 23 demo_sched)).2 <= Z.max 0 3.
Proof.
  assert (3 < max_int) as HN by (unfold max_int; lia).
  assert (0 <= 9 < max_int) as HM by (unfold max_int; lia).
  assert (exec demo_mem 3 9 (take 23 demo_sched)
          = Some (take 23 demo_trace, (run_of demo_mem 3 9 (take 23 demo_sched)).2)) as He
    by (vm_compute; reflexivity).
  destruct (waitgroup_counts_live_workers demo_mem 3 9 _ _ _ HN HM He) as (_ & Hb & _).
  split; [exact HN|]. split; [exact HM|]. split; [exact He|].
  split; [reflexivity | exact Hb].
Defined.
